(** * core-js-101, [src/05-objects-tasks.js]: a shallow embedding

    The file models the three utilities of [05-objects-tasks.js]:
    - [Rectangle], an object factory whose [getArea] closes over the
      constructor's parameters;
    - [getJSON] / [fromJSON], thin wrappers around the platform's JSON encoder,
      decoder and [Object.setPrototypeOf], which are modelled after
      ECMAScript;
    - the class [CssSelectorBuilder] and its facade [cssSelectorBuilder].

    JavaScript objects are mutable and are passed by reference.  A builder is
    therefore modelled twice: its three instance fields as a record (one
    method body is a function from the receiver's fields to a completion), and
    a heap of such records addressed by references, on which the methods, the
    constructor and the facade run in a state-and-exception monad.

    The builder never looks inside a string, so its strings are [string]; the
    JSON encoder and decoder work on code units, so theirs are lists of
    numbers. *)

From Stdlib Require Import ZArith NArith String Ascii List Bool Lia.
From Stdlib Require Import DecimalFacts DecimalPos DecimalZ.
From stdpp Require Import gmap strings list fin_maps.
Import ListNotations.

Local Open Scope string_scope.
Local Open Scope Z_scope.

(** ** Completions: a call returns normally or throws *)

(** The exceptions of the platform that the modelled code can raise.  [Error]
    is what [throw new Error(message)] raises; [TypeError] and [SyntaxError]
    are raised by built-ins. *)
Inductive exn : Type :=
| Error (message : string)
| TypeError
| SyntaxError.

Inductive completion (A : Type) : Type :=
| Normal (a : A)
| Throw (e : exn).
Arguments Normal {A} a.
Arguments Throw {A} e.

(** ** The class [CssSelectorBuilder] *)

Module CssSelectorBuilder.

(** The instance fields set by the constructor.  [cssArray] is held by value:
    every array stored in the field is freshly created (by the constructor,
    by [stringify], or by [concat] in [combine]) and never escapes, so no two
    builders ever share one. *)
Record t : Type := mk {
  previousSelector : string;
  cssArray : list string;
  order : Z
}.

(** The two messages of the source, verbatim. *)
Definition duplicate_message : string :=
  "Element, id and pseudo-element should not occur more then one time inside the selector".
Definition order_message : string :=
  "Selector parts should be arranged in the following order: element, id, class, attribute, pseudo-class, pseudo-element".

Definition DuplicateExclusive : exn := Error duplicate_message.
Definition OutOfOrder : exn := Error order_message.

(** [constructor()] *)
Definition constructor : t :=
  {| previousSelector := ""; cssArray := []; order := -1 |}.

(** [Array.prototype.join('')] on an array of strings. *)
Definition join (l : list string) : string := String.concat "" l.

(** [stringify()]: the returned string and the receiver afterwards.  The
    source assigns [previousSelector] and [cssArray]; [order] is not
    assigned. *)
Definition stringify (this : t) : string * t :=
  let str := join (cssArray this) in
  (str, {| previousSelector := ""; cssArray := []; order := order this |}).

(** The six appending methods.  A template literal applied to a string is
    that string, so [value] is a string here.  Each method throws before it
    assigns anything: a thrown call leaves the receiver as it was. *)
Definition element (value : string) (this : t) : completion t :=
  if String.eqb (previousSelector this) "element" then Throw DuplicateExclusive
  else if order this >? 0 then Throw OutOfOrder
  else Normal {| previousSelector := "element";
                 cssArray := cssArray this ++ [value];
                 order := 0 |}.

Definition id (value : string) (this : t) : completion t :=
  if String.eqb (previousSelector this) "id" then Throw DuplicateExclusive
  else if order this >? 1 then Throw OutOfOrder
  else Normal {| previousSelector := "id";
                 cssArray := cssArray this ++ ["#" ++ value];
                 order := 1 |}.

Definition class (value : string) (this : t) : completion t :=
  if order this >? 2 then Throw OutOfOrder
  else Normal {| previousSelector := "";
                 cssArray := cssArray this ++ ["." ++ value];
                 order := 2 |}.

Definition attr (value : string) (this : t) : completion t :=
  if order this >? 3 then Throw OutOfOrder
  else Normal {| previousSelector := "";
                 cssArray := cssArray this ++ ["[" ++ value ++ "]"];
                 order := 3 |}.

Definition pseudoClass (value : string) (this : t) : completion t :=
  if order this >? 4 then Throw OutOfOrder
  else Normal {| previousSelector := "";
                 cssArray := cssArray this ++ [":" ++ value];
                 order := 4 |}.

Definition pseudoElement (value : string) (this : t) : completion t :=
  if String.eqb (previousSelector this) "pseudoElement" then Throw DuplicateExclusive
  else Normal {| previousSelector := "pseudoElement";
                 cssArray := cssArray this ++ ["::" ++ value];
                 order := 5 |}.

(** [combine(selector1, combinator, selector2)]: the two arguments are read
    (their [cssArray] at the time of the call), only the receiver's
    [cssArray] is assigned. *)
Definition combine (selector1 : t) (combinator : string) (selector2 : t)
    (this : t) : completion t :=
  Normal {| previousSelector := previousSelector this;
            cssArray := ((cssArray this ++ cssArray selector1)
                           ++ [" " ++ combinator ++ " "])
                          ++ cssArray selector2;
            order := order this |}.

End CssSelectorBuilder.

(** ** Chains of appended fragments *)

(** The six fragment categories, in the order the source's second message
    lists them. *)
Inductive category : Type :=
| Element | Id | Class | Attribute | PseudoClass | PseudoElement.

#[global] Instance category_eq_dec : EqDecision category.
Proof. solve_decision. Defined.

(** The rank a method compares [order] with and stores in it. *)
Definition rank (c : category) : Z :=
  match c with
  | Element => 0 | Id => 1 | Class => 2
  | Attribute => 3 | PseudoClass => 4 | PseudoElement => 5
  end.

(** The three categories whose method compares [previousSelector]. *)
Definition exclusive (c : category) : bool :=
  match c with
  | Element | Id | PseudoElement => true
  | Class | Attribute | PseudoClass => false
  end.

(** A fragment: the method called and its argument. *)
Definition fragment : Type := category * string.

(** The method of the class that appends a fragment of category [c]. *)
Definition append (f : fragment) (this : CssSelectorBuilder.t)
  : completion CssSelectorBuilder.t :=
  match fst f with
  | Element => CssSelectorBuilder.element (snd f) this
  | Id => CssSelectorBuilder.id (snd f) this
  | Class => CssSelectorBuilder.class (snd f) this
  | Attribute => CssSelectorBuilder.attr (snd f) this
  | PseudoClass => CssSelectorBuilder.pseudoClass (snd f) this
  | PseudoElement => CssSelectorBuilder.pseudoElement (snd f) this
  end.

(** A fluent chain [b.m1(v1).m2(v2)...]: the calls run left to right and the
    first one that throws ends the chain. *)
Fixpoint appendAll (fs : list fragment) (this : CssSelectorBuilder.t)
  : completion CssSelectorBuilder.t :=
  match fs with
  | [] => Normal this
  | f :: fs' =>
      match append f this with
      | Normal this' => appendAll fs' this'
      | Throw e => Throw e
      end
  end.

(** The rendering of a fragment as the specification words it: the name,
    [#name], [.name], [[spec]], [:name], [::name]. *)
Definition render (f : fragment) : string :=
  match fst f with
  | Element => snd f
  | Id => "#" ++ snd f
  | Class => "." ++ snd f
  | Attribute => "[" ++ snd f ++ "]"
  | PseudoClass => ":" ++ snd f
  | PseudoElement => "::" ++ snd f
  end.

(** The highest rank among the fragments appended so far; [-1] when there is
    none (no rank is below it). *)
Definition max_rank (fs : list fragment) : Z :=
  fold_right (fun f m => Z.max (rank (fst f)) m) (-1) fs.

(** The category of the fragment appended last. *)
Definition last_category (fs : list fragment) : option category :=
  fst <$> last fs.

(** How many fragments of category [c] a chain holds. *)
Definition count (c : category) (fs : list fragment) : nat :=
  length (filter (fun f => fst f = c) fs).

(** What a method stores in [previousSelector]. *)
Definition tag (c : category) : string :=
  match c with
  | Element => "element"
  | Id => "id"
  | PseudoElement => "pseudoElement"
  | Class | Attribute | PseudoClass => ""
  end.

(** What holds of a builder that a chain of successful appends has produced
    from the constructor's state. *)
Record chain_inv (fs : list fragment) (b : CssSelectorBuilder.t) : Prop := {
  inv_css : CssSelectorBuilder.cssArray b = map render fs;
  inv_max : CssSelectorBuilder.order b = max_rank fs;
  inv_last : CssSelectorBuilder.order b = from_option rank (-1) (last_category fs);
  inv_prev : CssSelectorBuilder.previousSelector b = from_option tag "" (last_category fs)
}.

(** Any use of one builder: the six appends, [stringify], and [combine] with
    two selectors given by their fields at the time of the call. *)
Inductive action : Type :=
| Append (f : fragment)
| Stringify
| Combine (selector1 : CssSelectorBuilder.t) (combinator : string)
    (selector2 : CssSelectorBuilder.t).

(** The receiver after one call; a call that throws leaves it as it was. *)
Definition perform (a : action) (this : CssSelectorBuilder.t)
  : CssSelectorBuilder.t :=
  match a with
  | Append f =>
      match append f this with Normal this' => this' | Throw _ => this end
  | Stringify => snd (CssSelectorBuilder.stringify this)
  | Combine s1 c s2 =>
      match CssSelectorBuilder.combine s1 c s2 this with
      | Normal this' => this'
      | Throw _ => this
      end
  end.

Definition performAll (acts : list action) (this : CssSelectorBuilder.t)
  : CssSelectorBuilder.t :=
  fold_left (fun b a => perform a b) acts this.

(** *** The order of a selector's parts *)

(** Whether a fragment of category [c'] may come right after one of category
    [c], by the source's description of a selector,
    [element#id.class[attr]:pseudoClass::pseudoElement] with several
    occurrences of the three middle parts: a part further to the right, or
    the same part again when it is one of the three. *)
Definition may_follow (c c' : category) : bool :=
  (rank c <? rank c') || (bool_decide (c = c') && negb (exclusive c)).

(** A sequence of categories in which each one may follow the one before. *)
Fixpoint in_css_order (cs : list category) : bool :=
  match cs with
  | c :: ((c' :: _) as tl) => may_follow c c' && in_css_order tl
  | _ => true
  end.

(** The two tests of the appending methods on a receiver [b], for the method
    of category [c]: [true] when neither throws. *)
Definition accepts (b : CssSelectorBuilder.t) (c : category) : bool :=
  negb (exclusive c
        && String.eqb (CssSelectorBuilder.previousSelector b) (tag c))
  && negb (bool_decide (c <> PseudoElement)
           && (CssSelectorBuilder.order b >? rank c)).

(** ** Builders as heap objects *)

(** A reference to a builder object, and the heap of the builder objects
    allocated so far. *)
Abbreviation ref := positive (only parsing).
Abbreviation heap := (gmap positive CssSelectorBuilder.t) (only parsing).

(** Computations that read and write the heap and may throw.  A thrown
    computation keeps the heap it had reached. *)
Definition M (A : Type) : Type := heap -> completion A * heap.

Definition ret {A : Type} (a : A) : M A := fun h => (Normal a, h).

Definition bind {A B : Type} (m : M A) (k : A -> M B) : M B :=
  fun h =>
    match m h with
    | (Normal a, h') => k a h'
    | (Throw e, h') => (Throw e, h')
    end.

Declare Scope js_scope.
Delimit Scope js_scope with js.
Notation "x <- m ;; k" := (bind m (fun x => k))
  (at level 100, m at next level, right associativity) : js_scope.

(** [new CssSelectorBuilder()]: a reference not in use yet, bound to the
    fields the constructor sets. *)
Definition new : M ref :=
  fun h =>
    let r := fresh (dom h) in
    (Normal r, <[r := CssSelectorBuilder.constructor]> h).

(** Calling a method body on the object [this] refers to: the receiver's
    fields are replaced by what the body leaves, and the call returns [this].
    A reference to no object stands for [undefined], on which every property
    access throws a [TypeError]. *)
Definition invoke
    (body : CssSelectorBuilder.t -> completion CssSelectorBuilder.t)
    (this : ref) : M ref :=
  fun h =>
    match h !! this with
    | Some b =>
        match body b with
        | Normal b' => (Normal this, <[this := b']> h)
        | Throw e => (Throw e, h)
        end
    | None => (Throw TypeError, h)
    end.

(** [this.stringify()] *)
Definition call_stringify (this : ref) : M string :=
  fun h =>
    match h !! this with
    | Some b =>
        let (str, b') := CssSelectorBuilder.stringify b in
        (Normal str, <[this := b']> h)
    | None => (Throw TypeError, h)
    end.

(** [this.combine(selector1, combinator, selector2)]: the arguments are
    references, possibly to the receiver itself. *)
Definition call_combine (this selector1 : ref) (combinator : string)
    (selector2 : ref) : M ref :=
  fun h =>
    match h !! selector1, h !! selector2 with
    | Some s1, Some s2 =>
        invoke (CssSelectorBuilder.combine s1 combinator s2) this h
    | _, _ => (Throw TypeError, h)
    end.

(** ** The facade [cssSelectorBuilder] *)

Module cssSelectorBuilder.

Local Open Scope js_scope.

Definition element (value : string) : M ref :=
  cssSelector <- new ;;
  _ <- invoke (CssSelectorBuilder.element value) cssSelector ;;
  ret cssSelector.

Definition id (value : string) : M ref :=
  cssSelector <- new ;;
  _ <- invoke (CssSelectorBuilder.id value) cssSelector ;;
  ret cssSelector.

Definition class (value : string) : M ref :=
  cssSelector <- new ;;
  _ <- invoke (CssSelectorBuilder.class value) cssSelector ;;
  ret cssSelector.

Definition attr (value : string) : M ref :=
  cssSelector <- new ;;
  _ <- invoke (CssSelectorBuilder.attr value) cssSelector ;;
  ret cssSelector.

Definition pseudoClass (value : string) : M ref :=
  cssSelector <- new ;;
  _ <- invoke (CssSelectorBuilder.pseudoClass value) cssSelector ;;
  ret cssSelector.

Definition pseudoElement (value : string) : M ref :=
  cssSelector <- new ;;
  _ <- invoke (CssSelectorBuilder.pseudoElement value) cssSelector ;;
  ret cssSelector.

Definition combine (selector1 : ref) (combinator : string) (selector2 : ref)
  : M ref :=
  cssSelector <- new ;;
  _ <- call_combine cssSelector selector1 combinator selector2 ;;
  ret cssSelector.

End cssSelectorBuilder.

(** The seven operations, as data: what is called, with its arguments. *)
Inductive operation : Type :=
| OpElement (value : string)
| OpId (value : string)
| OpClass (value : string)
| OpAttr (value : string)
| OpPseudoClass (value : string)
| OpPseudoElement (value : string)
| OpCombine (selector1 : ref) (combinator : string) (selector2 : ref).

(** The operation as a method call on the builder [this]. *)
Definition method (op : operation) (this : ref) : M ref :=
  match op with
  | OpElement v => invoke (CssSelectorBuilder.element v) this
  | OpId v => invoke (CssSelectorBuilder.id v) this
  | OpClass v => invoke (CssSelectorBuilder.class v) this
  | OpAttr v => invoke (CssSelectorBuilder.attr v) this
  | OpPseudoClass v => invoke (CssSelectorBuilder.pseudoClass v) this
  | OpPseudoElement v => invoke (CssSelectorBuilder.pseudoElement v) this
  | OpCombine s1 c s2 => call_combine this s1 c s2
  end.

(** The operation as an entry point of the facade. *)
Definition facade (op : operation) : M ref :=
  match op with
  | OpElement v => cssSelectorBuilder.element v
  | OpId v => cssSelectorBuilder.id v
  | OpClass v => cssSelectorBuilder.class v
  | OpAttr v => cssSelectorBuilder.attr v
  | OpPseudoClass v => cssSelectorBuilder.pseudoClass v
  | OpPseudoElement v => cssSelectorBuilder.pseudoElement v
  | OpCombine s1 c s2 => cssSelectorBuilder.combine s1 c s2
  end.

(** The body an operation runs on its receiver, the selector arguments of
    [combine] read from the heap [h]; [None] when an argument refers to no
    object. *)
Definition body_of (op : operation) (h : heap)
  : option (CssSelectorBuilder.t -> completion CssSelectorBuilder.t) :=
  match op with
  | OpElement v => Some (CssSelectorBuilder.element v)
  | OpId v => Some (CssSelectorBuilder.id v)
  | OpClass v => Some (CssSelectorBuilder.class v)
  | OpAttr v => Some (CssSelectorBuilder.attr v)
  | OpPseudoClass v => Some (CssSelectorBuilder.pseudoClass v)
  | OpPseudoElement v => Some (CssSelectorBuilder.pseudoElement v)
  | OpCombine s1 c s2 =>
      match h !! s1, h !! s2 with
      | Some a1, Some a2 => Some (CssSelectorBuilder.combine a1 c a2)
      | _, _ => None
      end
  end.

(** The example of the specification: [element('div').id('main')] combined
    with [element('table').id('data')] by [~], then rendered. *)
Definition example_combine : M string :=
  (a <- cssSelectorBuilder.element "div" ;;
   a <- invoke (CssSelectorBuilder.id "main") a ;;
   b <- cssSelectorBuilder.element "table" ;;
   b <- invoke (CssSelectorBuilder.id "data") b ;;
   c <- cssSelectorBuilder.combine a "~" b ;;
   call_stringify c)%js.

(** A heap of three builders, as three chains started through the facade
    leave it: [element('div').id('main')], [class('a')] and
    [element('table').id('data')]. *)
Definition example_heap : heap :=
  <[1%positive := {| CssSelectorBuilder.previousSelector := "id";
                     CssSelectorBuilder.cssArray := ["div"; "#main"];
                     CssSelectorBuilder.order := 1 |}]>
  (<[2%positive := {| CssSelectorBuilder.previousSelector := "";
                      CssSelectorBuilder.cssArray := [".a"];
                      CssSelectorBuilder.order := 2 |}]>
  (<[3%positive := {| CssSelectorBuilder.previousSelector := "id";
                      CssSelectorBuilder.cssArray := ["table"; "#data"];
                      CssSelectorBuilder.order := 1 |}]> ∅)).

(** The operation that appends a fragment. *)
Definition op_of (f : fragment) : operation :=
  match fst f with
  | Element => OpElement (snd f)
  | Id => OpId (snd f)
  | Class => OpClass (snd f)
  | Attribute => OpAttr (snd f)
  | PseudoClass => OpPseudoClass (snd f)
  | PseudoElement => OpPseudoElement (snd f)
  end.

(** The method calls [this.m1(v1).m2(v2)...]: each call is made on what the
    call before returned, and the first one that throws ends the chain. *)
Fixpoint invoke_all (fs : list fragment) (this : ref) : M ref :=
  match fs with
  | [] => ret this
  | f :: fs' => (this' <- method (op_of f) this ;; invoke_all fs' this')%js
  end.

(** A fluent chain as the source's examples write it:
    [cssSelectorBuilder.m(v).m1(v1)...stringify()]. *)
Definition fluent (f : fragment) (fs : list fragment) : M string :=
  (x <- facade (op_of f) ;;
   y <- invoke_all fs x ;;
   call_stringify y)%js.

(** [cssSelectorBuilder.combine(s1, c, s2).stringify()] *)
Definition combine_and_render (s1 : ref) (c : string) (s2 : ref) : M string :=
  (x <- cssSelectorBuilder.combine s1 c s2 ;;
   call_stringify x)%js.

(** Three selectors combined, nested to the left,
    [combine(combine(a, c1, b), c2, d).stringify()], and to the right,
    [combine(a, c1, combine(b, c2, d)).stringify()]. *)
Definition combine_left (a : ref) (c1 : string) (b : ref) (c2 : string)
    (d : ref) : M string :=
  (x <- cssSelectorBuilder.combine a c1 b ;;
   y <- cssSelectorBuilder.combine x c2 d ;;
   call_stringify y)%js.

Definition combine_right (a : ref) (c1 : string) (b : ref) (c2 : string)
    (d : ref) : M string :=
  (x <- cssSelectorBuilder.combine b c2 d ;;
   y <- cssSelectorBuilder.combine a c1 x ;;
   call_stringify y)%js.

(** [this.stringify()] called twice in a row: the two results. *)
Definition stringify_twice (this : ref) : M (string * string) :=
  (first <- call_stringify this ;;
   second <- call_stringify this ;;
   ret (first, second))%js.

(** ** [Rectangle] *)

Section RectangleObject.

(** The numbers of the platform and their product [*] are parameters: nothing
    below depends on how numbers are represented or rounded. *)
Context {number : Type} (times : number -> number -> number).

(** The object literal [Rectangle] returns: two data properties and the method
    [getArea].  The method is a closure; its body [width * height] names the
    parameters of [Rectangle], not properties of the object. *)
Record rectangle : Type := {
  width : number;
  height : number;
  getArea : unit -> number
}.

Definition Rectangle (width height : number) : rectangle :=
  {| width := width;
     height := height;
     getArea := fun _ => times width height |}.

(** Assignments [r.width = v] and [r.height = v] made by a holder of the
    object. *)
Inductive assignment : Type :=
| SetWidth (v : number)
| SetHeight (v : number).

Definition assign (a : assignment) (r : rectangle) : rectangle :=
  match a with
  | SetWidth v => {| width := v; height := height r; getArea := getArea r |}
  | SetHeight v => {| width := width r; height := v; getArea := getArea r |}
  end.

Definition assignAll (l : list assignment) (r : rectangle) : rectangle :=
  fold_left (fun r a => assign a r) l r.

End RectangleObject.

(** ** [getJSON] and [fromJSON] *)

(** The two functions call [JSON.stringify], [JSON.parse] and
    [Object.setPrototypeOf].  These built-ins are modelled after ECMAScript:
    the encoder [SerializeJSONProperty] with [QuoteJSONString], the decoder of
    the JSON grammar with [CreateDataProperty] for the members of an object,
    and the prototype as far as the encoder consults it ([toJSON]). *)

Local Close Scope Z_scope.
Local Close Scope string_scope.
Local Open Scope N_scope.

(** A string of the platform: a sequence of 16-bit code units. *)
Abbreviation jsstring := (list N) (only parsing).

(** The code units of a string literal of this file. *)
Definition js (s : string) : jsstring :=
  map N_of_ascii (list_ascii_of_string s).

(** The characters a JSON number token is made of: digits, [-], [+], [.],
    [e], [E]. *)
Definition is_number_char (c : N) : bool :=
  ((48 <=? c) && (c <=? 57)) || (c =? 45) || (c =? 43) || (c =? 46)
  || (c =? 101) || (c =? 69).

(** The numbers of the platform, as far as the JSON encoder and decoder use
    them: the finite numbers, with [-0] and [+0] identified as [===] does
    ([NaN] and the infinities, which the encoder writes as [null], are not
    plain data).  [Number_toString] is [Number::toString] in radix 10;
    [parse_number] reads a whole token of the JSON number grammar. *)
Class Numbers : Type := {
  number : Type;
  Number_toString : number -> jsstring;
  parse_number : jsstring -> option number
}.

(** What the platform guarantees of them: the decimal form of a number is a
    non-empty run of number characters, and reading it gives the number
    back. *)
Class NumbersSpec (NM : Numbers) : Prop := {
  toString_chars :
    forall n, Forall (fun c => is_number_char c = true) (Number_toString n);
  toString_nonempty : forall n, Number_toString n <> [];
  parse_toString : forall n, parse_number (Number_toString n) = Some n
}.

Section JSON.

Context `{NM : Numbers}.

(** Plain data: [null], booleans, numbers, strings, dense arrays, and objects
    given by their own enumerable properties in enumeration order. *)
#[local] Unset Elimination Schemes.
Inductive data : Type :=
| DNull
| DBool (b : bool)
| DNum (n : number)
| DStr (s : jsstring)
| DArr (elements : list data)
| DObj (properties : list (jsstring * data)).
#[local] Set Elimination Schemes.

(** *** Encoding *)

(** The lowercase hexadecimal digit of a value below 16. *)
Definition hex_digit (d : N) : N := if d <? 10 then 48 + d else 87 + d.

(** [UnicodeEscape]: [\u] and four lowercase hexadecimal digits. *)
Definition UnicodeEscape (c : N) : jsstring :=
  [92; 117; hex_digit (c / 4096 mod 16); hex_digit (c / 256 mod 16);
   hex_digit (c / 16 mod 16); hex_digit (c mod 16)].

(** The two halves of a surrogate pair: [D800]-[DBFF] and [DC00]-[DFFF]. *)
Definition is_leading_surrogate (c : N) : bool :=
  (55296 <=? c) && (c <=? 56319).
Definition is_trailing_surrogate (c : N) : bool :=
  (56320 <=? c) && (c <=? 57343).

(** One code unit that is not half of a surrogate pair: the short escapes,
    [UnicodeEscape] for the other control characters and for a lone
    surrogate, the unit itself otherwise. *)
Definition quote_unit (c : N) : jsstring :=
  if c =? 8 then [92; 98]
  else if c =? 9 then [92; 116]
  else if c =? 10 then [92; 110]
  else if c =? 12 then [92; 102]
  else if c =? 13 then [92; 114]
  else if c =? 34 then [92; 34]
  else if c =? 92 then [92; 92]
  else if (c <? 32) || is_leading_surrogate c || is_trailing_surrogate c
  then UnicodeEscape c
  else [c].

(** The code units of a string, quoted: a leading surrogate followed by a
    trailing one is written as it is, any other unit by [quote_unit]. *)
Fixpoint quote_units (s : jsstring) : jsstring :=
  match s with
  | [] => []
  | c :: s' =>
      match s' with
      | c' :: s'' =>
          if is_leading_surrogate c && is_trailing_surrogate c'
          then c :: c' :: quote_units s''
          else quote_unit c ++ quote_units s'
      | [] => quote_unit c
      end
  end.

(** [QuoteJSONString]: the quoted units between two double quotes. *)
Definition QuoteJSONString (s : jsstring) : jsstring :=
  [34] ++ quote_units s ++ [34].

(** The strings of [l] with [sep] between them. *)
Fixpoint join_with (sep : jsstring) (l : list jsstring) : jsstring :=
  match l with
  | [] => []
  | [x] => x
  | x :: l' => x ++ sep ++ join_with sep l'
  end.

(** [SerializeJSONProperty] on plain data, without indentation:
    [SerializeJSONArray] writes the elements between brackets,
    [SerializeJSONObject] the members [key:value] between braces, both
    separated by commas. *)
Fixpoint SerializeJSONProperty (d : data) : jsstring :=
  match d with
  | DNull => js "null"
  | DBool true => js "true"
  | DBool false => js "false"
  | DNum n => Number_toString n
  | DStr s => QuoteJSONString s
  | DArr l => [91] ++ join_with [44] (map SerializeJSONProperty l) ++ [93]
  | DObj ps =>
      [123] ++ join_with [44] (map (fun p => QuoteJSONString (fst p) ++ [58]
                                         ++ SerializeJSONProperty (snd p)) ps)
      ++ [125]
  end.

(** *** Decoding *)

(** JSON white space: space, tab, line feed, carriage return. *)
Definition is_ws (c : N) : bool :=
  (c =? 32) || (c =? 9) || (c =? 10) || (c =? 13).

(** The input after its leading white space. *)
Fixpoint skip_ws (s : jsstring) : jsstring :=
  match s with
  | c :: s' => if is_ws c then skip_ws s' else s
  | [] => []
  end.

(** The value of a hexadecimal digit, of either case. *)
Definition hex_value (c : N) : option N :=
  if (48 <=? c) && (c <=? 57) then Some (c - 48)
  else if (97 <=? c) && (c <=? 102) then Some (c - 87)
  else if (65 <=? c) && (c <=? 70) then Some (c - 55)
  else None.

(** The code unit a one-character escape stands for. *)
Definition unescape (e : N) : option N :=
  if e =? 34 then Some 34
  else if e =? 92 then Some 92
  else if e =? 47 then Some 47
  else if e =? 98 then Some 8
  else if e =? 102 then Some 12
  else if e =? 110 then Some 10
  else if e =? 114 then Some 13
  else if e =? 116 then Some 9
  else None.

(** The unit [c] put before the units of a successful reading. *)
Definition cons_unit (c : N) (r : option (jsstring * jsstring))
  : option (jsstring * jsstring) :=
  match r with
  | Some (str, rest) => Some (c :: str, rest)
  | None => None
  end.

(** The characters of a string token after its opening quote, up to the
    closing quote; the code units denoted and the rest of the input. *)
Fixpoint parse_chars (s : jsstring) : option (jsstring * jsstring) :=
  match s with
  | [] => None
  | c :: s1 =>
      if c =? 34 then Some ([], s1)
      else if c =? 92 then
        match s1 with
        | [] => None
        | e :: s2 =>
            if e =? 117 then
              match s2 with
              | h3 :: h2 :: h1 :: h0 :: s6 =>
                  match hex_value h3, hex_value h2, hex_value h1, hex_value h0 with
                  | Some x3, Some x2, Some x1, Some x0 =>
                      cons_unit (x3 * 4096 + x2 * 256 + x1 * 16 + x0)
                        (parse_chars s6)
                  | _, _, _, _ => None
                  end
              | _ => None
              end
            else
              match unescape e with
              | Some u => cons_unit u (parse_chars s2)
              | None => None
              end
        end
      else if c <? 32 then None
      else cons_unit c (parse_chars s1)
  end.

(** The input after the literal [p], when the input starts with it. *)
Fixpoint strip_prefix (p s : jsstring) : option jsstring :=
  match p, s with
  | [], _ => Some s
  | a :: p', b :: s' => if a =? b then strip_prefix p' s' else None
  | _ :: _, [] => None
  end.

(** The longest prefix of number characters, and the rest. *)
Fixpoint span_number (s : jsstring) : jsstring * jsstring :=
  match s with
  | c :: s' =>
      if is_number_char c
      then let (run, rest) := span_number s' in (c :: run, rest)
      else ([], s)
  | [] => ([], [])
  end.

(** *** Objects: own properties in enumeration order *)

(** The value of a run of decimal digits. *)
Fixpoint digits_value (acc : N) (s : jsstring) : option N :=
  match s with
  | [] => Some acc
  | c :: s' =>
      if (48 <=? c) && (c <=? 57) then digits_value (acc * 10 + (c - 48)) s'
      else None
  end.

(** The array index a property key denotes, if it is one: a canonical
    decimal numeral below [2^32 - 1]. *)
Definition array_index (k : jsstring) : option N :=
  match k with
  | [] => None
  | c :: k' =>
      if (c =? 48) && negb (bool_decide (k' = [])) then None
      else match digits_value 0 k with
           | Some i => if i <? 4294967295 then Some i else None
           | None => None
           end
  end.

(** A new property with array index [i], put before the first property
    that is no array index or a greater one. *)
Fixpoint insert_index (i : N) (kv : jsstring * data)
    (ps : list (jsstring * data)) : list (jsstring * data) :=
  match ps with
  | [] => [kv]
  | p :: ps' =>
      match array_index (fst p) with
      | Some j => if j <? i then p :: insert_index i kv ps' else kv :: ps
      | None => kv :: ps
      end
  end.

(** [CreateDataProperty]: an existing property keeps its place and gets the
    new value; a new array index goes among the array indices, in ascending
    order; any other new key goes last. *)
Definition define (k : jsstring) (v : data) (ps : list (jsstring * data))
  : list (jsstring * data) :=
  if existsb (fun p => bool_decide (fst p = k)) ps
  then map (fun p => if bool_decide (fst p = k) then (fst p, v) else p) ps
  else match array_index k with
       | Some i => insert_index i (k, v) ps
       | None => ps ++ [(k, v)]
       end.

(** The object a member list of the text builds, member by member. *)
Definition build_object (members : list (jsstring * data))
  : list (jsstring * data) :=
  fold_left (fun o p => define (fst p) (snd p) o) members [].

(** *** The value grammar *)

(** The input after the character [c], when the input starts with it. *)
Definition expect (c : N) (s : jsstring) : option jsstring :=
  match s with
  | c' :: rest => if c' =? c then Some rest else None
  | [] => None
  end.

(** A value at the head of the input (which has no leading white space), and
    the rest of the input; [None] for a syntax error.  [parse_elements] reads
    the elements of an array up to the closing bracket, [parse_members] the
    members of an object up to the closing brace.  A number token is the
    longest run of number characters, read by [parse_number].  [fuel] bounds
    the depth of the recursion. *)
Fixpoint parse_value (fuel : nat) (s : jsstring) {struct fuel}
  : option (data * jsstring) :=
  match fuel with
  | O => None
  | S fuel =>
      match s with
      | [] => None
      | c :: s' =>
          if c =? 34 then
            match parse_chars s' with
            | Some (str, rest) => Some (DStr str, rest)
            | None => None
            end
          else if c =? 91 then
            match expect 93 (skip_ws s') with
            | Some rest => Some (DArr [], rest)
            | None =>
                match parse_elements fuel s' with
                | Some (l, rest) => Some (DArr l, rest)
                | None => None
                end
            end
          else if c =? 123 then
            match expect 125 (skip_ws s') with
            | Some rest => Some (DObj [], rest)
            | None =>
                match parse_members fuel s' with
                | Some (ms, rest) => Some (DObj (build_object ms), rest)
                | None => None
                end
            end
          else
            match strip_prefix (js "null") s with
            | Some rest => Some (DNull, rest)
            | None =>
            match strip_prefix (js "true") s with
            | Some rest => Some (DBool true, rest)
            | None =>
            match strip_prefix (js "false") s with
            | Some rest => Some (DBool false, rest)
            | None =>
                if is_number_char c then
                  let (run, rest) := span_number s in
                  match parse_number run with
                  | Some n => Some (DNum n, rest)
                  | None => None
                  end
                else None
            end end end
      end
  end
with parse_elements (fuel : nat) (s : jsstring) {struct fuel}
  : option (list data * jsstring) :=
  match fuel with
  | O => None
  | S fuel =>
      match parse_value fuel (skip_ws s) with
      | Some (v, rest) =>
          match expect 44 (skip_ws rest) with
          | Some rest' =>
              match parse_elements fuel rest' with
              | Some (l, rest'') => Some (v :: l, rest'')
              | None => None
              end
          | None =>
              match expect 93 (skip_ws rest) with
              | Some rest' => Some ([v], rest')
              | None => None
              end
          end
      | None => None
      end
  end
with parse_members (fuel : nat) (s : jsstring) {struct fuel}
  : option (list (jsstring * data) * jsstring) :=
  match fuel with
  | O => None
  | S fuel =>
      match expect 34 (skip_ws s) with
      | Some s1 =>
          match parse_chars s1 with
          | Some (k, s2) =>
              match expect 58 (skip_ws s2) with
              | Some s3 =>
                  match parse_value fuel (skip_ws s3) with
                  | Some (v, s4) =>
                      match expect 44 (skip_ws s4) with
                      | Some s5 =>
                          match parse_members fuel s5 with
                          | Some (ms, rest) => Some ((k, v) :: ms, rest)
                          | None => None
                          end
                      | None =>
                          match expect 125 (skip_ws s4) with
                          | Some s5 => Some ([(k, v)], s5)
                          | None => None
                          end
                      end
                  | None => None
                  end
              | None => None
              end
          | None => None
          end
      | None => None
      end
  end.

(** [JSON.parse(text)] without a reviver: one value, white space around it,
    nothing else.  The length of the text bounds the depth of the
    recursion. *)
Definition JSON_parse (text : jsstring) : completion data :=
  match parse_value (S (length text)) (skip_ws text) with
  | Some (d, rest) =>
      match skip_ws rest with
      | [] => Normal d
      | _ :: _ => Throw SyntaxError
      end
  | None => Throw SyntaxError
  end.

(** *** Prototypes *)

(** What the encoder looks up in an object's prototype chain: a callable
    [toJSON], if there is one, here one that returns plain data.  Anything
    else a prototype holds is not an own property of the object and is not
    encoded. *)
Record prototype : Type := { toJSON : option (data -> data) }.

(** A value: plain data as the decoder builds it (primitives, and objects and
    arrays with the default prototypes, which define no [toJSON]), or an
    object or array whose prototype was set. *)
Inductive value : Type :=
| Plain (d : data)
| WithPrototype (d : data) (proto : prototype).

(** [Object.setPrototypeOf(O, proto)] for an object [proto]: [null] is not
    coercible to an object, a primitive is returned as it is. *)
Definition Object_setPrototypeOf (O : data) (proto : prototype)
  : completion value :=
  match O with
  | DNull => Throw TypeError
  | DArr _ | DObj _ => Normal (WithPrototype O proto)
  | DBool _ | DNum _ | DStr _ => Normal (Plain O)
  end.

(** [JSON.stringify(value)] without replacer and indentation: a callable
    [toJSON] found through the prototype is called on the object and its
    result is encoded in the object's place. *)
Definition JSON_stringify (v : value) : jsstring :=
  match v with
  | Plain d => SerializeJSONProperty d
  | WithPrototype d proto =>
      match toJSON proto with
      | Some f => SerializeJSONProperty (f d)
      | None => SerializeJSONProperty d
      end
  end.

(** *** The two functions of the source *)

(** [getJSON(obj)] returns [JSON.stringify(obj)]. *)
Definition getJSON (obj : value) : jsstring := JSON_stringify obj.

(** [fromJSON(proto, json)] returns
    [Object.setPrototypeOf(JSON.parse(json), proto)]. *)
Definition fromJSON (proto : prototype) (json : jsstring) : completion value :=
  match JSON_parse json with
  | Normal d => Object_setPrototypeOf d proto
  | Throw e => Throw e
  end.

(** *** Well-formed data *)

(** The property lists of [d] are enumerations of objects: defining the
    properties one after the other yields the list itself (no key twice,
    array indices first and ascending). *)
Fixpoint well_formed (d : data) : Prop :=
  match d with
  | DArr l => fold_right (fun v P => well_formed v /\ P) True l
  | DObj ps =>
      build_object ps = ps
      /\ fold_right (fun p P => well_formed (snd p) /\ P) True ps
  | DNull | DBool _ | DNum _ | DStr _ => True
  end.

(** A bound on the depth of the decoder's recursion on the encoding of [d]. *)
Fixpoint weight (d : data) : nat :=
  match d with
  | DArr l => S (fold_right (fun v n => S (weight v + n)) O l)
  | DObj ps => S (fold_right (fun p n => S (weight (snd p) + n)) O ps)
  | DNull | DBool _ | DNum _ | DStr _ => 1%nat
  end.

(** What may follow a number token. *)
Definition delimited (rest : list N) : Prop :=
  match rest with
  | [] => True
  | c :: _ => is_number_char c = false
  end.

(** The statement proved by induction on the data: the decoder, given enough
    fuel, reads an encoding back and stops right after it. *)
Definition reads_back (d : data) : Prop :=
  forall fuel rest,
    well_formed d -> (weight d <= fuel)%nat -> delimited rest ->
    parse_value fuel (SerializeJSONProperty d ++ rest) = Some (d, rest).


(** The data of a value, whatever its prototype. *)
Definition own_data (v : value) : data :=
  match v with
  | Plain d => d
  | WithPrototype d _ => d
  end.

End JSON.

Arguments data : clear implicits.
Arguments value : clear implicits.
Arguments prototype : clear implicits.
Arguments reads_back {NM} d.
Arguments own_data {NM} v.

(** ** The integers as a model of the numbers *)

(** An integer is written in decimal, as the platform writes the integers it
    represents exactly (below [10^21] in magnitude); of the number grammar
    this model reads the integer tokens. *)

(** The digits of a decimal numeral, as code units. *)

Fixpoint uint_units (d : Decimal.uint) : jsstring :=
  match d with
  | Decimal.Nil => []
  | Decimal.D0 d => 48 :: uint_units d
  | Decimal.D1 d => 49 :: uint_units d
  | Decimal.D2 d => 50 :: uint_units d
  | Decimal.D3 d => 51 :: uint_units d
  | Decimal.D4 d => 52 :: uint_units d
  | Decimal.D5 d => 53 :: uint_units d
  | Decimal.D6 d => 54 :: uint_units d
  | Decimal.D7 d => 55 :: uint_units d
  | Decimal.D8 d => 56 :: uint_units d
  | Decimal.D9 d => 57 :: uint_units d
  end.

(** The numeral [d] with the digit [c] before it. *)
Definition digit_uint (c : N) (d : Decimal.uint) : option Decimal.uint :=
  if c =? 48 then Some (Decimal.D0 d)
  else if c =? 49 then Some (Decimal.D1 d)
  else if c =? 50 then Some (Decimal.D2 d)
  else if c =? 51 then Some (Decimal.D3 d)
  else if c =? 52 then Some (Decimal.D4 d)
  else if c =? 53 then Some (Decimal.D5 d)
  else if c =? 54 then Some (Decimal.D6 d)
  else if c =? 55 then Some (Decimal.D7 d)
  else if c =? 56 then Some (Decimal.D8 d)
  else if c =? 57 then Some (Decimal.D9 d)
  else None.

(** The decimal numeral a run of digits spells. *)
Fixpoint units_uint (s : jsstring) : option Decimal.uint :=
  match s with
  | [] => Some Decimal.Nil
  | c :: s' =>
      match units_uint s' with
      | Some d => digit_uint c d
      | None => None
      end
  end.

(** One digit at least, and no leading zero before another digit. *)
Definition canonical (d : Decimal.uint) : bool :=
  match d with
  | Decimal.Nil => false
  | Decimal.D0 Decimal.Nil => true
  | Decimal.D0 _ => false
  | _ => true
  end.

(** The decimal form of an integer, with a minus sign when negative. *)
Definition Z_toString (z : Z) : jsstring :=
  match Z.to_int z with
  | Decimal.Pos d => uint_units d
  | Decimal.Neg d => 45 :: uint_units d
  end.

(** The integer tokens of the JSON number grammar: an optional minus sign and
    a canonical decimal numeral. *)
Definition Z_parse (s : jsstring) : option Z :=
  match s with
  | [] => None
  | c :: s' =>
      if c =? 45 then
        match units_uint s' with
        | Some d => if canonical d then Some (Z.of_int (Decimal.Neg d)) else None
        | None => None
        end
      else
        match units_uint s with
        | Some d => if canonical d then Some (Z.of_int (Decimal.Pos d)) else None
        | None => None
        end
  end.

#[export] Instance integers : Numbers := {|
  number := Z;
  Number_toString := Z_toString;
  parse_number := Z_parse
|}.

(** [{radius: 10}], the object of the source's example for [fromJSON], and
    two prototypes for it: [Circle.prototype], which has no [toJSON], and one
    whose [toJSON] returns 42. *)
Definition example_circle : data integers :=
  DObj [(js "radius", DNum (10%Z : @number integers))].


Definition answering_prototype : prototype integers :=
  {| toJSON := Some (fun _ => DNum (42%Z : @number integers)) |}.


(** * Properties of the JSON encoder and decoder *)

Lemma units_uint_units (d : Decimal.uint) : units_uint (uint_units d) = Some d.
Proof. induction d; simpl; [reflexivity | rewrite IHd; reflexivity ..]. Qed.

Lemma uint_units_chars (d : Decimal.uint) :
  Forall (fun c => is_number_char c = true) (uint_units d).
Proof. induction d; simpl; constructor; first [reflexivity | assumption]. Qed.

Lemma uint_units_head (d : Decimal.uint) :
  match uint_units d with
  | [] => d = Decimal.Nil
  | c :: _ => (c =? 45) = false
  end.
Proof. destruct d; reflexivity. Qed.

Lemma nzhead_not_D0 (d x : Decimal.uint) : Decimal.nzhead d <> Decimal.D0 x.
Proof. induction d; simpl; try discriminate. exact IHd. Qed.

Lemma canonical_unorm (d : Decimal.uint) : Decimal.unorm d = d -> canonical d = true.
Proof.
  destruct d as [|d1| | | | | | | | |]; try reflexivity.
  - discriminate.
  - rewrite unorm_D0. unfold Decimal.unorm.
    destruct (Decimal.nzhead d1) eqn:E; intros H;
      try (exfalso; apply (nzhead_not_D0 d1 d1); congruence);
      try discriminate.
    injection H as <-. reflexivity.
Qed.

Lemma canonical_to_uint (p : positive) : canonical (Pos.to_uint p) = true.
Proof.
  apply canonical_unorm.
  rewrite <- (DecimalPos.Unsigned.to_of (Pos.to_uint p)).
  rewrite DecimalPos.Unsigned.of_to. reflexivity.
Qed.

Lemma Z_parse_toString (z : Z) : Z_parse (Z_toString z) = Some z.
Proof.
  unfold Z_toString, Z_parse.
  pose proof (DecimalZ.of_to z) as Hz.
  destruct z as [|p|p]; simpl Z.to_int in *.
  - reflexivity.
  - pose proof (uint_units_head (Pos.to_uint p)) as Hh.
    pose proof (units_uint_units (Pos.to_uint p)) as Hu.
    destruct (uint_units (Pos.to_uint p)) as [|c s] eqn:E.
    + exfalso. exact (DecimalPos.Unsigned.to_uint_nonnil p Hh).
    + rewrite Hh, Hu, canonical_to_uint, Hz. reflexivity.
  - change (45 =? 45) with true. cbv iota.
    rewrite units_uint_units, canonical_to_uint, Hz. reflexivity.
Qed.

Lemma Z_toString_chars (z : Z) :
  Forall (fun c => is_number_char c = true) (Z_toString z).
Proof.
  unfold Z_toString. destruct (Z.to_int z);
    [|constructor; [reflexivity|]]; apply uint_units_chars.
Qed.

Lemma Z_toString_nonempty (z : Z) : Z_toString z <> [].
Proof.
  unfold Z_toString. destruct z as [|p|p]; simpl; try discriminate.
  pose proof (uint_units_head (Pos.to_uint p)) as Hh.
  destruct (uint_units (Pos.to_uint p)); [|discriminate].
  intros _. exact (DecimalPos.Unsigned.to_uint_nonnil p Hh).
Qed.

Lemma integers_spec : NumbersSpec integers.
Proof.
  split; [exact Z_toString_chars | exact Z_toString_nonempty
         | exact Z_parse_toString].
Qed.

(** ** Strings *)

Lemma hex_value_digit (d : N) : d < 16 -> hex_value (hex_digit d) = Some d.
Proof.
  intros H. destruct d as [|p]; [reflexivity|].
  do 4 (destruct p as [p|p|]; try reflexivity); lia.
Qed.

Lemma hex_digits_value (c : N) :
  c < 65536 ->
  (c / 4096 mod 16) * 4096 + (c / 256 mod 16) * 256 + (c / 16 mod 16) * 16
  + c mod 16 = c.
Proof.
  intros H.
  pose proof (N.div_mod c 16 ltac:(lia)).
  pose proof (N.div_mod (c / 16) 16 ltac:(lia)).
  pose proof (N.div_mod (c / 16 / 16) 16 ltac:(lia)).
  pose proof (N.mod_lt c 16 ltac:(lia)).
  pose proof (N.mod_lt (c / 16) 16 ltac:(lia)).
  pose proof (N.mod_lt (c / 16 / 16) 16 ltac:(lia)).
  replace (c / 256) with (c / 16 / 16) by (rewrite N.Div0.div_div; reflexivity).
  replace (c / 4096) with (c / 16 / 16 / 16) by (rewrite !N.Div0.div_div; reflexivity).
  assert (c / 16 / 16 / 16 < 16) as Hq.
  { rewrite !N.Div0.div_div. apply N.Div0.div_lt_upper_bound. simpl. lia. }
  rewrite (N.mod_small (c / 16 / 16 / 16) 16 Hq). lia.
Qed.

Lemma parse_chars_cons (c : N) (s1 : list N) :
  parse_chars (c :: s1) =
    if c =? 34 then Some ([], s1)
    else if c =? 92 then
      match s1 with
      | [] => None
      | e :: s2 =>
          if e =? 117 then
            match s2 with
            | h3 :: h2 :: h1 :: h0 :: s6 =>
                match hex_value h3, hex_value h2, hex_value h1, hex_value h0 with
                | Some x3, Some x2, Some x1, Some x0 =>
                    cons_unit (x3 * 4096 + x2 * 256 + x1 * 16 + x0)
                      (parse_chars s6)
                | _, _, _, _ => None
                end
            | _ => None
            end
          else
            match unescape e with
            | Some u => cons_unit u (parse_chars s2)
            | None => None
            end
      end
    else if c <? 32 then None
    else cons_unit c (parse_chars s1).
Proof. reflexivity. Qed.

Lemma parse_chars_raw (c : N) (tail : list N) :
  (c =? 34) = false -> (c =? 92) = false -> (c <? 32) = false ->
  parse_chars (c :: tail) = cons_unit c (parse_chars tail).
Proof. intros H1 H2 H3. rewrite parse_chars_cons, H1, H2, H3. reflexivity. Qed.

Lemma parse_chars_UnicodeEscape (c : N) (tail : list N) :
  c < 65536 ->
  parse_chars (UnicodeEscape c ++ tail) = cons_unit c (parse_chars tail).
Proof.
  intros H. unfold UnicodeEscape. cbn [app].
  rewrite parse_chars_cons.
  change (92 =? 34) with false. change (92 =? 92) with true.
  change (117 =? 117) with true. cbv iota.
  rewrite !hex_value_digit by (apply N.mod_lt; lia).
  rewrite hex_digits_value by exact H. reflexivity.
Qed.

Lemma parse_chars_quote_unit (c : N) (tail : list N) :
  parse_chars (quote_unit c ++ tail) = cons_unit c (parse_chars tail).
Proof.
  unfold quote_unit.
  destruct (c =? 8) eqn:E8; [apply N.eqb_eq in E8; subst; reflexivity|].
  destruct (c =? 9) eqn:E9; [apply N.eqb_eq in E9; subst; reflexivity|].
  destruct (c =? 10) eqn:E10; [apply N.eqb_eq in E10; subst; reflexivity|].
  destruct (c =? 12) eqn:E12; [apply N.eqb_eq in E12; subst; reflexivity|].
  destruct (c =? 13) eqn:E13; [apply N.eqb_eq in E13; subst; reflexivity|].
  destruct (c =? 34) eqn:E34; [apply N.eqb_eq in E34; subst; reflexivity|].
  destruct (c =? 92) eqn:E92; [apply N.eqb_eq in E92; subst; reflexivity|].
  destruct ((c <? 32) || is_leading_surrogate c || is_trailing_surrogate c)
    eqn:E.
  - apply parse_chars_UnicodeEscape.
    unfold is_leading_surrogate, is_trailing_surrogate in E.
    apply orb_true_iff in E as [E|E]; [apply orb_true_iff in E as [E|E]|].
    + apply N.ltb_lt in E. lia.
    + apply andb_true_iff in E as [_ E]. apply N.leb_le in E. lia.
    + apply andb_true_iff in E as [_ E]. apply N.leb_le in E. lia.
  - apply orb_false_iff in E as [E _]. apply orb_false_iff in E as [E _].
    cbn [app]. apply parse_chars_raw; assumption.
Qed.

Lemma parse_chars_surrogate (c : N) (tail : list N) :
  is_leading_surrogate c || is_trailing_surrogate c = true ->
  parse_chars (c :: tail) = cons_unit c (parse_chars tail).
Proof.
  unfold is_leading_surrogate, is_trailing_surrogate. intros H.
  assert (55296 <= c) as Hc.
  { apply orb_true_iff in H as [H|H]; apply andb_true_iff in H as [H _];
      apply N.leb_le in H; lia. }
  apply parse_chars_raw;
    [apply N.eqb_neq | apply N.eqb_neq | apply N.ltb_ge]; lia.
Qed.

Lemma quote_units_cons2 (c c' : N) (s2 : list N) :
  quote_units (c :: c' :: s2) =
    if is_leading_surrogate c && is_trailing_surrogate c'
    then c :: c' :: quote_units s2
    else quote_unit c ++ quote_units (c' :: s2).
Proof. reflexivity. Qed.

Lemma parse_chars_quote_units (s rest : list N) :
  parse_chars (quote_units s ++ 34 :: rest) = Some (s, rest).
Proof.
  remember (length s) as n eqn:Hn. revert s Hn.
  induction n as [n IH] using lt_wf_ind. intros s Hn.
  destruct s as [|c [|c' s2]].
  - reflexivity.
  - cbn [quote_units]. rewrite parse_chars_quote_unit.
    change (parse_chars (34 :: rest)) with (Some (@nil N, rest)). reflexivity.
  - rewrite quote_units_cons2.
    destruct (is_leading_surrogate c && is_trailing_surrogate c') eqn:E.
    + apply andb_true_iff in E as [E1 E2]. cbn [app].
      rewrite parse_chars_surrogate by (rewrite E1; reflexivity).
      rewrite parse_chars_surrogate by (rewrite E2; apply orb_true_r).
      rewrite (IH (length s2) ltac:(subst n; simpl; lia) s2 eq_refl).
      reflexivity.
    + rewrite <- app_assoc, parse_chars_quote_unit.
      rewrite (IH (length (c' :: s2)) ltac:(subst n; simpl; lia) (c' :: s2) eq_refl).
      reflexivity.
Qed.

(** ** Values *)

Section RoundTrip.

Context `{NM : Numbers} {NS : NumbersSpec NM}.

Lemma data_induction (P : data NM -> Prop) :
  P DNull ->
  (forall b, P (DBool b)) ->
  (forall n, P (DNum n)) ->
  (forall s, P (DStr s)) ->
  (forall l, Forall P l -> P (DArr l)) ->
  (forall ps, Forall (fun p => P (snd p)) ps -> P (DObj ps)) ->
  forall d, P d.
Proof.
  intros Hnull Hbool Hnum Hstr Harr Hobj.
  fix IH 1. intros [ |b|n|s|l|ps].
  - exact Hnull.
  - apply Hbool.
  - apply Hnum.
  - apply Hstr.
  - apply Harr. induction l as [|v l IHl]; constructor; [apply IH | exact IHl].
  - apply Hobj. induction ps as [|[k v] ps IHps]; constructor;
      [apply IH | exact IHps].
Qed.

Lemma number_char_not (c : N) :
  is_number_char c = true ->
  (c =? 34) = false /\ (c =? 91) = false /\ (c =? 123) = false
  /\ (c =? 93) = false /\ (c =? 125) = false /\ is_ws c = false
  /\ (c =? 110) = false /\ (c =? 116) = false /\ (c =? 102) = false.
Proof.
  intros H. unfold is_ws.
  repeat split;
    repeat match goal with
           | |- context [c =? ?k] =>
               destruct (N.eqb_spec c k); [subst c; discriminate H|]
           end; reflexivity.
Qed.

Lemma skip_ws_head (c : N) (t : list N) :
  is_ws c = false -> skip_ws (c :: t) = c :: t.
Proof. intros H. simpl. rewrite H. reflexivity. Qed.

Lemma span_number_app (run rest : list N) :
  Forall (fun c => is_number_char c = true) run -> delimited rest ->
  span_number (run ++ rest) = (run, rest).
Proof.
  intros Hrun Hrest. induction Hrun as [|c run Hc _ IH]; cbn [app span_number].
  - destruct rest as [|c rest]; [reflexivity|]. cbn [delimited] in Hrest.
    cbn [span_number]. rewrite Hrest. reflexivity.
  - rewrite Hc, IH. reflexivity.
Qed.

(** The first character of an encoding: no white space, no closing bracket. *)
Lemma serialize_head (d : data NM) :
  exists c t, SerializeJSONProperty d = c :: t
              /\ is_ws c = false /\ (c =? 93) = false.
Proof.
  destruct d as [ |[|]|n|s|l|ps]; simpl;
    try (eexists _, _; repeat split; reflexivity).
  pose proof (toString_chars n) as Hc. pose proof (toString_nonempty n) as Hn.
  destruct (Number_toString n) as [|c t]; [congruence|].
  apply Forall_cons in Hc as [Hc _].
  apply number_char_not in Hc. exists c, t. tauto.
Qed.

Lemma parse_value_S (fuel : nat) (c : N) (s' : list N) :
  parse_value (S fuel) (c :: s') =
    if c =? 34 then
      match parse_chars s' with
      | Some (str, rest) => Some (DStr str, rest)
      | None => None
      end
    else if c =? 91 then
      match expect 93 (skip_ws s') with
      | Some rest => Some (DArr [], rest)
      | None =>
          match parse_elements fuel s' with
          | Some (l, rest) => Some (DArr l, rest)
          | None => None
          end
      end
    else if c =? 123 then
      match expect 125 (skip_ws s') with
      | Some rest => Some (DObj [], rest)
      | None =>
          match parse_members fuel s' with
          | Some (ms, rest) => Some (DObj (build_object ms), rest)
          | None => None
          end
      end
    else
      match strip_prefix (js "null") (c :: s') with
      | Some rest => Some (DNull, rest)
      | None =>
      match strip_prefix (js "true") (c :: s') with
      | Some rest => Some (DBool true, rest)
      | None =>
      match strip_prefix (js "false") (c :: s') with
      | Some rest => Some (DBool false, rest)
      | None =>
          if is_number_char c then
            let (run, rest) := span_number (c :: s') in
            match parse_number run with
            | Some n => Some (DNum n, rest)
            | None => None
            end
          else None
      end end end.
Proof. reflexivity. Qed.

Lemma parse_elements_S (fuel : nat) (s : list N) :
  parse_elements (S fuel) s =
    match parse_value fuel (skip_ws s) with
    | Some (v, rest) =>
        match expect 44 (skip_ws rest) with
        | Some rest' =>
            match parse_elements fuel rest' with
            | Some (l, rest'') => Some (v :: l, rest'')
            | None => None
            end
        | None =>
            match expect 93 (skip_ws rest) with
            | Some rest' => Some ([v], rest')
            | None => None
            end
        end
    | None => None
    end.
Proof. reflexivity. Qed.

Lemma parse_members_S (fuel : nat) (s : list N) :
  parse_members (S fuel) s =
    match expect 34 (skip_ws s) with
    | Some s1 =>
        match parse_chars s1 with
        | Some (k, s2) =>
            match expect 58 (skip_ws s2) with
            | Some s3 =>
                match parse_value fuel (skip_ws s3) with
                | Some (v, s4) =>
                    match expect 44 (skip_ws s4) with
                    | Some s5 =>
                        match parse_members fuel s5 with
                        | Some (ms, rest) => Some ((k, v) :: ms, rest)
                        | None => None
                        end
                    | None =>
                        match expect 125 (skip_ws s4) with
                        | Some s5 => Some ([(k, v)], s5)
                        | None => None
                        end
                    end
                | None => None
                end
            | None => None
            end
        | None => None
        end
    | None => None
    end.
Proof. reflexivity. Qed.

Lemma skip_ws_serialize (d : data NM) (rest : list N) :
  skip_ws (SerializeJSONProperty d ++ rest) = SerializeJSONProperty d ++ rest.
Proof.
  destruct (serialize_head d) as (c & t & -> & Hws & _).
  apply skip_ws_head, Hws.
Qed.

Lemma parse_elements_join (l : list (data NM)) :
  Forall reads_back l -> l <> [] ->
  forall fuel rest,
    fold_right (fun v P => well_formed v /\ P) True l ->
    (fold_right (fun v n => S (weight v + n)) O l <= fuel)%nat ->
    parse_elements fuel
      (join_with [44] (map SerializeJSONProperty l) ++ 93 :: rest)
    = Some (l, rest).
Proof.
  induction 1 as [|v l Hv Hl IH]; [congruence|]. intros _ fuel rest Hwf Hfuel.
  simpl in Hwf, Hfuel. destruct Hwf as [Hwv Hwl].
  destruct fuel as [|fuel]; [lia|]. rewrite parse_elements_S.
  destruct l as [|v' l'].
  - cbn [map join_with]. rewrite skip_ws_serialize.
    rewrite (Hv fuel (93 :: rest) Hwv ltac:(lia) eq_refl).
    reflexivity.
  - change (join_with [44] (map SerializeJSONProperty (v :: v' :: l')))
      with (SerializeJSONProperty v ++ 44
            :: join_with [44] (map SerializeJSONProperty (v' :: l'))).
    rewrite <- app_assoc, <- app_comm_cons. rewrite skip_ws_serialize.
    rewrite (Hv fuel); [|exact Hwv|lia|reflexivity].
    change (skip_ws (44 :: ?x)) with (44 :: x).
    change (expect 44 (44 :: ?x)) with (Some x).
    cbv beta iota.
    rewrite (IH ltac:(discriminate) fuel rest Hwl ltac:(simpl in *; lia)).
    reflexivity.
Qed.

Lemma member_app (k : list N) (v : data NM) (tail : list N) :
  (QuoteJSONString k ++ [58] ++ SerializeJSONProperty v) ++ tail
  = 34 :: quote_units k ++ 34 :: 58 :: SerializeJSONProperty v ++ tail.
Proof.
  unfold QuoteJSONString. cbn [app]. f_equal.
  rewrite <- !app_assoc. reflexivity.
Qed.

Lemma parse_members_join (ps : list (list N * data NM)) :
  Forall (fun p => reads_back (snd p)) ps -> ps <> [] ->
  forall fuel rest,
    fold_right (fun p P => well_formed (snd p) /\ P) True ps ->
    (fold_right (fun p n => S (weight (snd p) + n)) O ps <= fuel)%nat ->
    parse_members fuel
      (join_with [44] (map (fun p => QuoteJSONString (fst p) ++ [58]
                                ++ SerializeJSONProperty (snd p)) ps)
       ++ 125 :: rest)
    = Some (ps, rest).
Proof.
  induction 1 as [|[k v] ps Hv Hl IH]; [congruence|].
  intros _ fuel rest Hwf Hfuel.
  cbn [fold_right snd] in Hwf, Hfuel. destruct Hwf as [Hwv Hwl].
  cbn [snd] in Hv.
  destruct fuel as [|fuel]; [lia|]. rewrite parse_members_S.
  destruct ps as [|p' ps'].
  - cbn [map join_with fst snd]. rewrite member_app.
    change (skip_ws (34 :: ?x)) with (34 :: x).
    change (expect 34 (34 :: ?x)) with (Some x). cbv beta iota.
    rewrite parse_chars_quote_units.
    change (skip_ws (58 :: ?x)) with (58 :: x).
    change (expect 58 (58 :: ?x)) with (Some x). cbv beta iota.
    rewrite skip_ws_serialize.
    rewrite (Hv fuel); [|exact Hwv|lia|reflexivity].
    reflexivity.
  - change (join_with [44] (map ?f ((k, v) :: p' :: ps')))
      with ((QuoteJSONString k ++ [58] ++ SerializeJSONProperty v)
            ++ 44 :: join_with [44] (map f (p' :: ps'))).
    rewrite <- app_assoc, member_app.
    change (skip_ws (34 :: ?x)) with (34 :: x).
    change (expect 34 (34 :: ?x)) with (Some x). cbv beta iota.
    rewrite parse_chars_quote_units.
    change (skip_ws (58 :: ?x)) with (58 :: x).
    change (expect 58 (58 :: ?x)) with (Some x). cbv beta iota.
    rewrite skip_ws_serialize. rewrite <- app_comm_cons.
    rewrite (Hv fuel); [|exact Hwv|lia|reflexivity].
    change (skip_ws (44 :: ?x)) with (44 :: x).
    change (expect 44 (44 :: ?x)) with (Some x). cbv beta iota.
    rewrite (IH ltac:(discriminate) fuel rest Hwl ltac:(lia)).
    reflexivity.
Qed.

Lemma bracket_app (a b : N) (body rest : list N) :
  ([a] ++ body ++ [b]) ++ rest = a :: body ++ b :: rest.
Proof. cbn [app]. rewrite <- app_assoc. reflexivity. Qed.

(** The decoder reads every encoding back. *)
Lemma serialize_reads_back (d : data NM) : reads_back d.
Proof.
  induction d as [ |b|n|s|l IH|ps IH] using data_induction;
    intros fuel rest Hwf Hfuel Hrest;
    (destruct fuel as [|fuel]; [simpl in Hfuel; lia|]).
  - reflexivity.
  - destruct b; reflexivity.
  - cbn [SerializeJSONProperty].
    pose proof (toString_chars n) as Hc.
    pose proof (toString_nonempty n) as Hn.
    pose proof (span_number_app _ rest Hc Hrest) as Hspan.
    pose proof (parse_toString n) as Hp.
    destruct (Number_toString n) as [|c t]; [congruence|].
    pose proof Hc as Hc'. apply Forall_cons in Hc' as [Hc0 _].
    destruct (number_char_not c Hc0)
      as (H34 & H91 & H123 & _ & _ & _ & H110 & H116 & H102).
    rewrite <- app_comm_cons in *. rewrite parse_value_S.
    rewrite H34, H91, H123, Hc0.
    assert (forall p q t', (c =? q) = false ->
              strip_prefix (q :: p) (c :: t') = None) as Hstrip.
    { intros p q t' Hq. cbn [strip_prefix]. rewrite N.eqb_sym, Hq. reflexivity. }
    change (js "null") with (110 :: js "ull").
    change (js "true") with (116 :: js "rue").
    change (js "false") with (102 :: js "alse").
    rewrite !Hstrip by assumption.
    rewrite Hspan, Hp. reflexivity.
  - cbn [SerializeJSONProperty]. unfold QuoteJSONString.
    cbn [app]. rewrite parse_value_S. change (34 =? 34) with true.
    cbv beta iota. rewrite <- app_assoc. cbn [app].
    rewrite parse_chars_quote_units. reflexivity.
  - cbn [SerializeJSONProperty]. rewrite bracket_app, parse_value_S.
    change (91 =? 34) with false. change (91 =? 91) with true. cbv beta iota.
    destruct l as [|v l'].
    + reflexivity.
    + assert (expect 93 (skip_ws
                (join_with [44] (map SerializeJSONProperty (v :: l')) ++ 93 :: rest))
              = None) as ->.
      { destruct (serialize_head v) as (c & t & E & Hws & H93).
        assert (exists t', join_with [44] (map SerializeJSONProperty (v :: l'))
                           ++ 93 :: rest = c :: t') as [t' ->].
        { cbn [map join_with]. rewrite E. destruct (map SerializeJSONProperty l');
            eexists; reflexivity. }
        rewrite skip_ws_head by exact Hws. cbn [expect]. rewrite H93.
        reflexivity. }
      cbn [well_formed] in Hwf. cbn [weight] in Hfuel.
      rewrite (parse_elements_join (v :: l') IH ltac:(discriminate)
                 fuel rest Hwf ltac:(lia)).
      reflexivity.
  - cbn [SerializeJSONProperty]. rewrite bracket_app, parse_value_S.
    change (123 =? 34) with false. change (123 =? 91) with false.
    change (123 =? 123) with true. cbv beta iota.
    destruct ps as [|[k v] ps'].
    + reflexivity.
    + assert (forall f : list N * data NM -> list N,
                (forall p, exists t, f p = 34 :: t) ->
                expect 125 (skip_ws
                  (join_with [44] (map f ((k, v) :: ps')) ++ 125 :: rest))
                = None) as Hexp.
      { intros f Hf. destruct (Hf (k, v)) as [t E].
        assert (exists t', join_with [44] (map f ((k, v) :: ps')) ++ 125 :: rest
                           = 34 :: t') as [t' ->].
        { cbn [map join_with]. rewrite E. destruct (map f ps');
            eexists; reflexivity. }
        reflexivity. }
      rewrite Hexp by (intros p; eexists; reflexivity).
      cbn [well_formed] in Hwf. destruct Hwf as [Hbuild Hwf]. cbn [weight] in Hfuel.
      rewrite (parse_members_join ((k, v) :: ps') IH ltac:(discriminate)
                 fuel rest Hwf ltac:(lia)).
      rewrite Hbuild. reflexivity.
Qed.

End RoundTrip.

Section Claim.

Context `{NM : Numbers} {NS : NumbersSpec NM}.

Lemma length_join_cons (x : list N) (l : list (list N)) :
  length (join_with [44] (x :: l)) =
    match l with
    | [] => length x
    | _ :: _ => S (length x + length (join_with [44] l))
    end.
Proof.
  destruct l as [|y l]; cbn [join_with]; [reflexivity|].
  rewrite !length_app. simpl. lia.
Qed.

Lemma size_le_length (d : data NM) :
  (weight d <= length (SerializeJSONProperty d))%nat.
Proof.
  induction d as [ |b|n|s|l IH|ps IH] using data_induction.
  - simpl. lia.
  - destruct b; simpl; lia.
  - cbn [weight SerializeJSONProperty].
    pose proof (toString_nonempty n).
    destruct (Number_toString n); [congruence | simpl; lia].
  - cbn [weight SerializeJSONProperty]. unfold QuoteJSONString.
    rewrite !length_app. simpl. lia.
  - cbn [weight SerializeJSONProperty]. rewrite !length_app.
    cbn [length].
    enough (fold_right (fun v n => S (weight v + n)) O l
            <= S (length (join_with [44%N] (map SerializeJSONProperty l))))%nat by lia.
    induction IH as [|v l Hv _ IHl]; [simpl; lia|].
    cbn [fold_right map]. rewrite length_join_cons.
    destruct l; cbn [map fold_right] in *; lia.
  - cbn [weight SerializeJSONProperty]. rewrite !length_app.
    cbn [length].
    enough (fold_right (fun p n => S (weight (snd p) + n)) O ps
            <= S (length (join_with [44%N]
                    (map (fun p => QuoteJSONString (fst p) ++ [58%N]
                                   ++ SerializeJSONProperty (snd p)) ps))))%nat
      by lia.
    induction IH as [|p ps Hv _ IHl]; [simpl; lia|].
    cbn [fold_right map]. rewrite length_join_cons.
    rewrite !length_app.
    destruct ps; cbn [map fold_right length] in *; lia.
Qed.

(** A property list with no key twice and no array index among its keys is
    the enumeration of an object. *)
Lemma fold_define_plain_keys (ps acc : list (list N * data NM)) :
  NoDup (map fst (acc ++ ps)) ->
  Forall (fun p => array_index (fst p) = None) ps ->
  fold_left (fun o p => define (fst p) (snd p) o) ps acc = acc ++ ps.
Proof.
  revert acc. induction ps as [|[k v] ps IH]; intros acc Hnd Hidx.
  - rewrite app_nil_r. reflexivity.
  - apply Forall_cons in Hidx as [Hk Hidx]. cbn [fold_left fst snd] in *.
    assert (existsb (fun p : list N * data NM => bool_decide (fst p = k)) acc
            = false) as Hex.
    { apply not_true_is_false. intros Hex.
      apply existsb_exists in Hex as ([k' v'] & Hin & Heq).
      apply bool_decide_eq_true in Heq. cbn [fst] in Heq. subst k'.
      rewrite map_app in Hnd. apply NoDup_app in Hnd as (_ & Hdisj & _).
      apply (Hdisj k).
      - apply list_elem_of_In, in_map_iff. exists (k, v'). split; [reflexivity|].
        exact Hin.
      - left. }
    unfold define at 2. rewrite Hex, Hk.
    rewrite IH; [rewrite <- app_assoc; reflexivity | | exact Hidx].
    rewrite <- app_assoc. exact Hnd.
Qed.

Lemma build_object_plain_keys (ps : list (list N * data NM)) :
  NoDup (map fst ps) ->
  Forall (fun p => array_index (fst p) = None) ps ->
  build_object ps = ps.
Proof. intros Hnd Hidx. apply (fold_define_plain_keys ps []); assumption. Qed.

(** [JSON.parse(JSON.stringify(d))] is [d], for well-formed plain data. *)
Lemma JSON_parse_serialize (d : data NM) :
  well_formed d -> JSON_parse (SerializeJSONProperty d) = Normal d.
Proof.
  intros Hwf. unfold JSON_parse.
  pose proof (skip_ws_serialize d []) as Hws. rewrite app_nil_r in Hws.
  rewrite Hws.
  pose proof (serialize_reads_back d (S (length (SerializeJSONProperty d))) []
                Hwf ltac:(pose proof (size_le_length d); lia) I) as Hp.
  rewrite app_nil_r in Hp. rewrite Hp. reflexivity.
Qed.


End Claim.

(** The decoder on a few texts: white space, escapes, a repeated key and
    array indices among the keys, and three syntax errors. *)
Example JSON_parse_array :
  @JSON_parse integers (js " [1, 2 ,-30 ] ")
  = Normal (DArr [@DNum integers 1%Z; @DNum integers 2%Z; @DNum integers (-30)%Z]).
Proof. vm_compute. reflexivity. Qed.

Example JSON_parse_escapes :
  @JSON_parse integers ([34] ++ js "\u0041\/\n" ++ [34])
  = Normal (DStr [65; 47; 10]).
Proof. vm_compute. reflexivity. Qed.

Example JSON_parse_object_order :
  @JSON_parse integers
    (js "{" ++ [34] ++ js "b" ++ [34] ++ js ":1," ++ [34] ++ js "2" ++ [34]
     ++ js ":0," ++ [34] ++ js "1" ++ [34] ++ js ":true," ++ [34] ++ js "b"
     ++ [34] ++ js ":null}")
  = Normal (DObj [(js "1", DBool true); (js "2", @DNum integers 0%Z);
                  (js "b", DNull)]).
Proof. vm_compute. reflexivity. Qed.

Example JSON_parse_errors :
  @JSON_parse integers (js "[1,]") = Throw SyntaxError
  /\ @JSON_parse integers (js "01") = Throw SyntaxError
  /\ @JSON_parse integers (js "{} x") = Throw SyntaxError.
Proof. repeat split. Qed.

Example SerializeJSONProperty_string :
  @SerializeJSONProperty integers (DStr [10; 34; 1; 233; 55357; 56832; 56832])
  = [34] ++ js "\n\" ++ [34] ++ js "\u0001" ++ [233; 55357; 56832]
    ++ js "\ude00" ++ [34].
Proof. vm_compute. reflexivity. Qed.



(** ** Further properties of [getJSON] and [fromJSON] *)

Section JSONExtras.

Context `{NM : Numbers} {NS : NumbersSpec NM}.

(** X8.  Decoding what [getJSON] wrote gives the data back under every
    prototype, one with a [toJSON] included: [fromJSON(proto, getJSON(x))]
    is [x] itself when [x] is a boolean, a number or a string, the object or
    array [x] with the prototype [proto] otherwise, and a [TypeError] when
    [x] is [null]; it never is a [SyntaxError]. *)
Theorem fromJSON_of_getJSON (x : data NM) (proto : prototype NM) :
  well_formed x ->
  fromJSON proto (getJSON (Plain x)) = Object_setPrototypeOf x proto
  /\ fromJSON proto (getJSON (Plain x)) <> Throw SyntaxError
  /\ (x <> DNull ->
      exists v, fromJSON proto (getJSON (Plain x)) = Normal v
                /\ own_data v = x).
Proof.
  intros Hwf.
  assert (fromJSON proto (getJSON (Plain x)) = Object_setPrototypeOf x proto)
    as E.
  { unfold fromJSON, getJSON. cbn [JSON_stringify].
    rewrite (JSON_parse_serialize x Hwf). reflexivity. }
  split; [exact E|]. rewrite E. split.
  - destruct x; discriminate.
  - intros Hx. destruct x; [congruence|..]; eexists; split; reflexivity.
Qed.

(** X9.  [getJSON] tells plain data apart: two different well-formed values
    never have the same text. *)
Theorem getJSON_injective (x y : data NM) :
  well_formed x -> well_formed y -> x <> y ->
  getJSON (Plain x) <> getJSON (Plain y).
Proof.
  intros Hx Hy Hne E. apply Hne. unfold getJSON in E.
  cbn [JSON_stringify] in E.
  pose proof (JSON_parse_serialize x Hx) as Px.
  rewrite E, (JSON_parse_serialize y Hy) in Px.
  injection Px as ->. reflexivity.
Qed.

End JSONExtras.

(** [{radius: 10}] under the prototype whose [toJSON] returns 42. *)
Lemma fromJSON_of_getJSON_witness :
  fromJSON answering_prototype (getJSON (Plain example_circle))
    = Object_setPrototypeOf example_circle answering_prototype
  /\ fromJSON answering_prototype (getJSON (Plain example_circle))
     <> Throw SyntaxError
  /\ (example_circle <> DNull ->
      exists v, fromJSON answering_prototype (getJSON (Plain example_circle))
                = Normal v
                /\ own_data v = example_circle).
Proof.
  apply (@fromJSON_of_getJSON integers integers_spec example_circle
           answering_prototype).
  split; [reflexivity | exact (conj I I)].
Defined.

(** [{radius: 10}] and [[10]]. *)
Lemma getJSON_injective_witness :
  getJSON (Plain example_circle)
  <> getJSON (Plain (DArr [@DNum integers 10%Z])).
Proof.
  apply (@getJSON_injective integers integers_spec example_circle
           (DArr [@DNum integers 10%Z])).
  - split; [reflexivity | exact (conj I I)].
  - exact (conj I I).
  - discriminate.
Defined.

Local Close Scope N_scope.
Local Open Scope string_scope.
Local Open Scope Z_scope.

(** * Properties of the selector builder *)

Section ChainFacts.

Import CssSelectorBuilder.

(** The six methods follow one scheme: the [previousSelector] test (three of
    them), the [order] test (all but [pseudoElement]), then the assignments. *)
Lemma append_eq (f : fragment) (b : t) :
  append f b =
    if exclusive (fst f) && String.eqb (previousSelector b) (tag (fst f))
    then Throw DuplicateExclusive
    else if bool_decide (fst f <> PseudoElement) && (order b >? rank (fst f))
    then Throw OutOfOrder
    else Normal {| previousSelector := tag (fst f);
                   cssArray := (cssArray b ++ [render f])%list;
                   order := rank (fst f) |}.
Proof. destruct f as [[] v]; reflexivity. Qed.

Lemma messages_differ : OutOfOrder <> DuplicateExclusive.
Proof. discriminate. Qed.

Lemma rank_inj (c c' : category) : rank c = rank c' -> c = c'.
Proof. destruct c, c'; simpl; intros H; try reflexivity; discriminate H. Qed.

Lemma rank_bounds (c : category) : 0 <= rank c <= 5.
Proof. destruct c; simpl; lia. Qed.

Lemma rank_5 (c : category) : 5 <= rank c -> c = PseudoElement.
Proof. destruct c; simpl; intros H; try reflexivity; lia. Qed.

Lemma tag_exclusive (c c' : category) :
  exclusive c = true -> tag c' = tag c -> c' = c.
Proof. destruct c, c'; simpl; intros E H; try reflexivity; discriminate. Qed.

Lemma appendAll_snoc (fs : list fragment) (f : fragment) (b : t) :
  appendAll (fs ++ [f]) b =
    match appendAll fs b with
    | Normal b' => append f b'
    | Throw e => Throw e
    end.
Proof.
  revert b. induction fs as [|g fs IH]; intros b; simpl.
  - destruct (append f b); reflexivity.
  - destruct (append g b) as [b'|e]; [apply IH | reflexivity].
Qed.

Lemma max_rank_snoc (fs : list fragment) (f : fragment) :
  max_rank (fs ++ [f]) = Z.max (max_rank fs) (rank (fst f)).
Proof.
  unfold max_rank. induction fs as [|g fs IH]; simpl; [lia|].
  rewrite IH. lia.
Qed.

Lemma max_rank_ge (fs : list fragment) (f : fragment) :
  In f fs -> rank (fst f) <= max_rank fs.
Proof.
  unfold max_rank. induction fs as [|g fs IH]; simpl; [tauto|].
  intros [->|H]; [lia|]. specialize (IH H). lia.
Qed.

Lemma last_category_snoc (fs : list fragment) (f : fragment) :
  last_category (fs ++ [f]) = Some (fst f).
Proof. unfold last_category. rewrite last_snoc. reflexivity. Qed.

Lemma count_snoc (c : category) (fs : list fragment) (f : fragment) :
  count c (fs ++ [f]) = (count c fs + if decide (fst f = c) then 1 else 0)%nat.
Proof.
  unfold count. rewrite filter_app, length_app. f_equal.
  rewrite filter_cons, filter_nil. destruct (decide (fst f = c)); reflexivity.
Qed.

Lemma count_0 (c : category) (fs : list fragment) :
  (forall f, In f fs -> fst f <> c) -> count c fs = 0%nat.
Proof.
  unfold count. induction fs as [|g fs IH]; intros H; [reflexivity|].
  rewrite filter_cons. destruct (decide (fst g = c)) as [E|_].
  - exfalso. apply (H g); [left; reflexivity | exact E].
  - apply IH. intros f Hf. apply H. right. exact Hf.
Qed.

Lemma chain_invariant (fs : list fragment) :
  forall b, appendAll fs constructor = Normal b -> chain_inv fs b.
Proof.
  induction fs as [|f fs IH] using rev_ind; intros b H.
  - injection H as <-. split; reflexivity.
  - rewrite appendAll_snoc in H.
    destruct (appendAll fs constructor) as [b0|e]; [|discriminate].
    destruct (IH b0 eq_refl) as [Hc Hm Hl Hp].
    rewrite append_eq in H.
    destruct (exclusive (fst f) && _); [discriminate|].
    destruct (bool_decide (fst f <> PseudoElement) && (order b0 >? rank (fst f)))
      eqn:Hord; [discriminate|].
    injection H as <-.
    split; simpl.
    + rewrite Hc, map_app. reflexivity.
    + rewrite max_rank_snoc, <- Hm.
      apply andb_false_iff in Hord as [Hpe|Hgt].
      * apply bool_decide_eq_false in Hpe.
        assert (fst f = PseudoElement) as -> by (destruct (decide (fst f = PseudoElement)); tauto).
        simpl. rewrite Hl. destruct (last_category fs) as [c|]; simpl;
          [pose proof (rank_bounds c)|]; lia.
      * lia.
    + rewrite last_category_snoc. reflexivity.
    + rewrite last_category_snoc. reflexivity.
Qed.

(** A category present in a chain is the last one or a lower-ranked one. *)
Lemma chain_member_rank (fs : list fragment) (b : t) (c : category) :
  chain_inv fs b -> In c (map fst fs) ->
  exists c', last_category fs = Some c' /\ rank c <= rank c'.
Proof.
  intros [_ Hm Hl _] Hin.
  apply in_map_iff in Hin as (f & <- & Hf).
  pose proof (max_rank_ge fs f Hf) as Hge.
  destruct (last_category fs) as [c'|] eqn:E.
  - exists c'. split; [reflexivity|]. simpl in Hl. lia.
  - simpl in Hl. pose proof (rank_bounds (fst f)). lia.
Qed.

(** Once [order] is 5 it stays 5, whatever is called on the builder. *)
Lemma perform_order_5 (a : action) (b : t) :
  order b = 5 -> order (perform a b) = 5.
Proof.
  intros H. destruct a as [f| |s1 c s2]; simpl; try exact H.
  rewrite append_eq.
  destruct (exclusive (fst f) && _); [exact H|].
  destruct (bool_decide (fst f <> PseudoElement) && (order b >? rank (fst f)))
    eqn:Hord; [exact H|].
  simpl. apply andb_false_iff in Hord as [Hpe|Hgt].
  - apply bool_decide_eq_false in Hpe.
    assert (fst f = PseudoElement) as -> by (destruct (decide (fst f = PseudoElement)); tauto).
    reflexivity.
  - pose proof (rank_bounds (fst f)). lia.
Qed.

Lemma performAll_order_5 (acts : list action) (b : t) :
  order b = 5 -> order (performAll acts b) = 5.
Proof.
  unfold performAll. revert b.
  induction acts as [|a acts IH]; intros b H; simpl; [exact H|].
  apply IH, perform_order_5, H.
Qed.

End ChainFacts.

Section ChainClaims.

Import CssSelectorBuilder.

(** A second call of an exclusive method on a chain that holds a fragment of
    its category throws: the duplicate error when that fragment is the one
    appended last, the ordering error otherwise. *)
Lemma exclusive_again_throws (fs : list fragment) (b : t) (c : category)
    (v : string) :
  chain_inv fs b -> exclusive c = true -> In c (map fst fs) ->
  append (c, v) b =
    Throw (if decide (last_category fs = Some c)
           then DuplicateExclusive else OutOfOrder).
Proof.
  intros Hinv Hex Hin.
  destruct (chain_member_rank fs b c Hinv Hin) as (c' & Hlast & Hle).
  destruct Hinv as [_ _ Hl Hp]. rewrite Hlast in Hl, Hp. simpl in Hl, Hp.
  rewrite append_eq. cbn [fst snd]. rewrite Hlast, Hex, Hp, Hl. simpl.
  destruct (decide (Some c' = Some c)) as [E|N].
  - injection E as ->. rewrite String.eqb_refl. reflexivity.
  - assert (c' <> c) as Hne by congruence.
    assert (tag c' <> tag c) as Htag
      by (intros E; apply Hne, (tag_exclusive c c' Hex E)).
    apply String.eqb_neq in Htag. rewrite Htag.
    assert (rank c < rank c') as Hlt.
    { destruct (Z.eq_dec (rank c) (rank c')) as [E|?]; [|lia].
      exfalso. apply Hne. symmetry. apply rank_inj, E. }
    assert (c <> PseudoElement) as Hpe.
    { intros ->. pose proof (rank_bounds c'). simpl in Hlt. lia. }
    rewrite (bool_decide_eq_true_2 _ Hpe).
    assert ((rank c' >? rank c) = true) as -> by (apply Z.gtb_lt; exact Hlt).
    reflexivity.
Qed.

Lemma count_exclusive (fs : list fragment) :
  forall b c, appendAll fs constructor = Normal b -> exclusive c = true ->
  (count c fs <= 1)%nat.
Proof.
  induction fs as [|f fs IH] using rev_ind; intros b c H Hex.
  - unfold count. simpl. lia.
  - rewrite appendAll_snoc in H.
    destruct (appendAll fs constructor) as [b0|e] eqn:H0; [|discriminate].
    rewrite count_snoc. destruct (decide (fst f = c)) as [E|N].
    + rewrite (count_0 c fs); [lia|].
      intros g Hg Hc.
      assert (In c (map fst fs)) as Hin
        by (apply in_map_iff; exists g; split; assumption).
      pose proof (exclusive_again_throws fs b0 c (snd f)
                    (chain_invariant fs b0 H0) Hex Hin) as Hthrow.
      destruct f as [c0 v]. simpl in E. subst c0. simpl in Hthrow.
      rewrite Hthrow in H. discriminate.
    + specialize (IH b0 c eq_refl Hex). lia.
Qed.

(** C1.  On a chain built from the constructor's state by the six appending
    methods, the next append raises the ordering error exactly when the rank
    of its category is strictly below the highest rank appended so far.  An
    append of equal or higher rank never raises it; for [class], [attr] and
    [pseudoClass], which make no other test, such an append succeeds, so each
    of them may be repeated. *)
Theorem out_of_order_iff_below_max (fs : list fragment) (b : t)
    (f : fragment) :
  appendAll fs constructor = Normal b ->
  (append f b = Throw OutOfOrder <-> rank (fst f) < max_rank fs)
  /\ (max_rank fs <= rank (fst f) -> append f b <> Throw OutOfOrder)
  /\ (exclusive (fst f) = false -> max_rank fs <= rank (fst f) ->
      exists b', append f b = Normal b').
Proof.
  intros H. destruct (chain_invariant fs b H) as [_ Hm Hl Hp].
  assert (append f b = Throw OutOfOrder <-> rank (fst f) < max_rank fs) as Hiff.
  { rewrite append_eq, <- Hm.
    destruct (exclusive (fst f)) eqn:Hex; simpl.
    - destruct (String.eqb (previousSelector b) (tag (fst f))) eqn:Heq.
      + apply String.eqb_eq in Heq. rewrite Hp in Heq.
        destruct (last_category fs) as [c'|]; simpl in Heq, Hl.
        * apply (tag_exclusive _ _ Hex) in Heq. subst c'.
          split; [intros E; injection E; discriminate | lia].
        * destruct (fst f); discriminate.
      + destruct (bool_decide (fst f <> PseudoElement)) eqn:Hpe; simpl.
        * destruct (order b >? rank (fst f)) eqn:Hgt.
          -- apply Z.gtb_lt in Hgt. split; [intros _; exact Hgt | reflexivity].
          -- split; [discriminate|]. intros Hlt. apply Z.gtb_lt in Hlt.
             congruence.
        * apply bool_decide_eq_false in Hpe.
          assert (fst f = PseudoElement) as ->
            by (destruct (decide (fst f = PseudoElement)); tauto).
          split; [discriminate|]. simpl. rewrite Hl.
          destruct (last_category fs) as [c'|]; simpl;
            [pose proof (rank_bounds c')|]; lia.
    - rewrite bool_decide_eq_true_2 by (destruct (fst f); discriminate).
      simpl. destruct (order b >? rank (fst f)) eqn:Hgt.
      + apply Z.gtb_lt in Hgt. split; [intros _; exact Hgt | reflexivity].
      + split; [discriminate|]. intros Hlt. apply Z.gtb_lt in Hlt. congruence. }
  split; [exact Hiff|]. split.
  - intros Hge Hthrow. apply Hiff in Hthrow. lia.
  - intros Hex Hge. rewrite append_eq, Hex. simpl.
    assert ((order b >? rank (fst f)) = false) as ->
      by (rewrite Z.gtb_ltb; apply Z.ltb_ge; lia).
    rewrite andb_false_r. eexists. reflexivity.
Qed.

(** The chain [id('main').class('container')] followed by [class('editable')]:
    rank 2 is not below the highest rank 2, and the repeated class is
    accepted. *)
Lemma out_of_order_iff_below_max_witness :
  (append (Class, "editable")
     {| previousSelector := ""; cssArray := ["#main"; ".container"]; order := 2 |}
     = Throw OutOfOrder
   <-> rank Class < max_rank [(Id, "main"); (Class, "container")])
  /\ (max_rank [(Id, "main"); (Class, "container")] <= rank Class ->
      append (Class, "editable")
        {| previousSelector := ""; cssArray := ["#main"; ".container"]; order := 2 |}
        <> Throw OutOfOrder)
  /\ (exclusive Class = false ->
      max_rank [(Id, "main"); (Class, "container")] <= rank Class ->
      exists b', append (Class, "editable")
        {| previousSelector := ""; cssArray := ["#main"; ".container"]; order := 2 |}
        = Normal b').
Proof.
  exact (out_of_order_iff_below_max
           [(Id, "main"); (Class, "container")]
           {| previousSelector := ""; cssArray := ["#main"; ".container"]; order := 2 |}
           (Class, "editable") eq_refl).
Defined.

(** C2, as the code has it.  On a chain built by the six appending methods,
    calling [element], [id] or [pseudoElement] again when the chain already
    holds a fragment of that category always throws: the duplicate error when
    that fragment is the one appended last, the ordering error when another
    fragment was appended since; for [pseudoElement] it is always the
    duplicate error.  Hence a chain holds at most one fragment of each of the
    three categories. *)
Theorem exclusive_second_call_throws (fs : list fragment) (b : t)
    (c : category) (v : string) :
  appendAll fs constructor = Normal b -> exclusive c = true ->
  (count c fs <= 1)%nat
  /\ (In c (map fst fs) ->
      append (c, v) b =
        Throw (if decide (last_category fs = Some c)
               then DuplicateExclusive else OutOfOrder))
  /\ (In PseudoElement (map fst fs) ->
      append (PseudoElement, v) b = Throw DuplicateExclusive).
Proof.
  intros H Hex. pose proof (chain_invariant fs b H) as Hinv.
  split; [exact (count_exclusive fs b c H Hex)|]. split.
  - apply exclusive_again_throws; assumption.
  - intros Hin.
    rewrite (exclusive_again_throws fs b PseudoElement v Hinv eq_refl Hin).
    destruct (chain_member_rank fs b _ Hinv Hin) as (c' & Hlast & Hle).
    apply rank_5 in Hle. subst c'. rewrite Hlast.
    destruct (decide (Some PseudoElement = Some PseudoElement)); congruence.
Qed.

(** [element('a').class('b')] followed by [element('c')]: one element fragment
    in the chain, and the second call throws the ordering error. *)
Lemma exclusive_second_call_throws_witness :
  (count Element [(Element, "a"); (Class, "b")] <= 1)%nat
  /\ (In Element (map fst [(Element, "a"); (Class, "b")]) ->
      append (Element, "c")
        {| previousSelector := ""; cssArray := ["a"; ".b"]; order := 2 |}
      = Throw (if decide (last_category [(Element, "a"); (Class, "b")]
                          = Some Element)
               then DuplicateExclusive else OutOfOrder))
  /\ (In PseudoElement (map fst [(Element, "a"); (Class, "b")]) ->
      append (PseudoElement, "c")
        {| previousSelector := ""; cssArray := ["a"; ".b"]; order := 2 |}
      = Throw DuplicateExclusive).
Proof.
  exact (exclusive_second_call_throws
           [(Element, "a"); (Class, "b")]
           {| previousSelector := ""; cssArray := ["a"; ".b"]; order := 2 |}
           Element "c" eq_refl eq_refl).
Defined.

(** C2, as stated, fails: on the chain [element('a').class('b')], which holds
    an element fragment, the second [element] call raises the ordering error,
    not the duplicate error. *)
Lemma second_element_after_class_is_out_of_order :
  appendAll [(Element, "a"); (Class, "b")] constructor
    = Normal {| previousSelector := ""; cssArray := ["a"; ".b"]; order := 2 |}
  /\ element "c" {| previousSelector := ""; cssArray := ["a"; ".b"]; order := 2 |}
     = Throw OutOfOrder
  /\ element "c" {| previousSelector := ""; cssArray := ["a"; ".b"]; order := 2 |}
     <> Throw DuplicateExclusive.
Proof. repeat split. discriminate. Qed.

(** C3.  After a chain of appends that all succeeded, [stringify()] returns
    the renderings of the fragments, in the order of the calls, concatenated
    with nothing between them. *)
Theorem stringify_concatenates_renderings (fs : list fragment) (b : t) :
  appendAll fs constructor = Normal b ->
  fst (stringify b) = String.concat "" (map render fs).
Proof.
  intros H. destruct (chain_invariant fs b H) as [Hc _ _ _].
  unfold stringify, join. simpl. rewrite Hc. reflexivity.
Qed.

(** [id('main').class('container').class('editable').stringify()] *)
Lemma stringify_concatenates_renderings_witness :
  appendAll [(Id, "main"); (Class, "container"); (Class, "editable")] constructor
    = Normal {| previousSelector := "";
                cssArray := ["#main"; ".container"; ".editable"];
                order := 2 |}
  /\ fst (stringify {| previousSelector := "";
                       cssArray := ["#main"; ".container"; ".editable"];
                       order := 2 |})
     = "#main.container.editable".
Proof.
  split; [reflexivity|].
  exact (stringify_concatenates_renderings
           [(Id, "main"); (Class, "container"); (Class, "editable")]
           _ eq_refl).
Defined.

(** C4, evaluated.  [stringify()] leaves [order] as it was: after
    [class('a')] and [stringify()] the builder is not in the constructor's
    state, and [element('div')], which a new builder accepts, throws the
    ordering error on it. *)
Theorem stringify_keeps_order :
  (forall b, snd (stringify b)
             = {| previousSelector := ""; cssArray := []; order := order b |})
  /\ performAll [Append (Class, "a"); Stringify] constructor
     = {| previousSelector := ""; cssArray := []; order := 2 |}
  /\ element "div" (performAll [Append (Class, "a"); Stringify] constructor)
     = Throw OutOfOrder
  /\ element "div" constructor
     = Normal {| previousSelector := "element"; cssArray := ["div"]; order := 0 |}.
Proof. repeat split. Qed.

(** A chain run in two parts. *)
Lemma appendAll_app (fs gs : list fragment) (b0 : t) :
  appendAll (fs ++ gs) b0 =
    match appendAll fs b0 with
    | Normal b => appendAll gs b
    | Throw e => Throw e
    end.
Proof.
  revert b0. induction fs as [|f fs IH]; intros b0; cbn [app appendAll].
  - reflexivity.
  - destruct (append f b0) as [b1|e]; [apply IH | reflexivity].
Qed.

(** On a chain that holds a pseudo-element fragment, [class] throws the
    ordering error. *)
Lemma class_on_chain_with_pseudoElement (fs : list fragment) (b : t)
    (w : string) :
  appendAll fs constructor = Normal b -> In PseudoElement (map fst fs) ->
  class w b = Throw OutOfOrder.
Proof.
  intros H Hin. destruct (chain_invariant fs b H) as [_ Hm _ _].
  apply in_map_iff in Hin as (f & Hf & Hin).
  pose proof (max_rank_ge fs f Hin) as Hge. rewrite Hf in Hge. simpl in Hge.
  unfold class.
  assert ((order b >? 2) = true) as -> by (apply Z.gtb_lt; lia).
  reflexivity.
Qed.

(** On a chain that holds no pseudo-element fragment, [pseudoElement] is
    accepted, whatever the chain holds. *)
Lemma pseudoElement_on_chain_without (fs : list fragment) (b : t)
    (v : string) :
  appendAll fs constructor = Normal b -> ~ In PseudoElement (map fst fs) ->
  exists b', pseudoElement v b = Normal b' /\ order b' = 5.
Proof.
  intros H Hnin. destruct (chain_invariant fs b H) as [_ _ _ Hp].
  unfold pseudoElement.
  assert (String.eqb (previousSelector b) "pseudoElement" = false) as ->.
  { apply String.eqb_neq. rewrite Hp. unfold last_category.
    destruct (last fs) as [f|] eqn:E; [|discriminate].
    apply last_Some in E as [fs' ->]. cbn.
    destruct f as [c u]. destruct c; try discriminate.
    exfalso. apply Hnin. rewrite map_app. apply in_or_app. right. left.
    reflexivity. }
  eexists. split; reflexivity.
Qed.

(** C5, as the code has it.  [pseudoElement] makes no ordering test, only
    the duplicate test: on a chain built from a new builder by the six
    appending methods it never raises the ordering error, and it is accepted
    whenever the chain holds no pseudo-element fragment yet, whatever else
    the chain holds.  It records rank 5, so that on a chain that holds a
    pseudo-element fragment a second [pseudoElement] raises the duplicate
    error and [class] raises the ordering error. *)
Theorem class_after_pseudoElement_throws (fs : list fragment) (b : t)
    (v w : string) :
  appendAll fs constructor = Normal b ->
  pseudoElement v b <> Throw OutOfOrder
  /\ (~ In PseudoElement (map fst fs) ->
      exists b', pseudoElement v b = Normal b' /\ order b' = 5)
  /\ (In PseudoElement (map fst fs) ->
      pseudoElement v b = Throw DuplicateExclusive
      /\ class w b = Throw OutOfOrder).
Proof.
  intros H. split; [|split].
  - unfold pseudoElement. destruct (String.eqb _ _); discriminate.
  - apply pseudoElement_on_chain_without, H.
  - intros Hin. split; [|exact (class_on_chain_with_pseudoElement fs b w H Hin)].
    pose proof (chain_invariant fs b H) as Hinv.
    pose proof (exclusive_again_throws fs b PseudoElement v Hinv eq_refl Hin)
      as E.
    destruct (chain_member_rank fs b _ Hinv Hin) as (c' & Hlast & Hle).
    apply rank_5 in Hle. subst c'. rewrite Hlast in E.
    destruct (decide (Some PseudoElement = Some PseudoElement));
      [exact E | congruence].
Qed.

(** [pseudoElement('after')] is accepted after [attr('href')], of rank 3;
    after [class('a').pseudoElement('after')], [class('x')] throws. *)
Lemma class_after_pseudoElement_throws_witness :
  (exists b',
     pseudoElement "after"
       {| previousSelector := ""; cssArray := ["[href]"]; order := 3 |}
     = Normal b' /\ order b' = 5)
  /\ class "x" {| previousSelector := "pseudoElement";
                  cssArray := [".a"; "::after"]; order := 5 |}
     = Throw OutOfOrder.
Proof.
  split.
  - apply (class_after_pseudoElement_throws [(Attribute, "href")]
             {| previousSelector := ""; cssArray := ["[href]"]; order := 3 |}
             "after" "x" eq_refl).
    intros [H|[]]. discriminate H.
  - apply (class_after_pseudoElement_throws
             [(Class, "a"); (PseudoElement, "after")]
             {| previousSelector := "pseudoElement";
                cssArray := [".a"; "::after"]; order := 5 |}
             "after" "x" eq_refl).
    right. left. reflexivity.
Defined.

(** C5, as stated, fails: no chain of appends on a new builder that runs
    without error holds a pseudo-element fragment followed by a class
    fragment. *)
Lemma no_class_after_pseudoElement :
  ~ exists (fs1 fs2 fs3 : list fragment) (v w : string) (b : t),
      appendAll (fs1 ++ (PseudoElement, v) :: fs2 ++ (Class, w) :: fs3)
        constructor = Normal b.
Proof.
  intros (fs1 & fs2 & fs3 & v & w & b & H).
  replace (fs1 ++ (PseudoElement, v) :: fs2 ++ (Class, w) :: fs3)%list
    with ((fs1 ++ (PseudoElement, v) :: fs2) ++ (Class, w) :: fs3)%list in H
    by (rewrite <- app_assoc; reflexivity).
  rewrite appendAll_app in H.
  destruct (appendAll (fs1 ++ (PseudoElement, v) :: fs2) constructor)
    as [b1|e] eqn:E; [|discriminate].
  cbn [appendAll] in H.
  change (append (Class, w) b1) with (class w b1) in H.
  rewrite (class_on_chain_with_pseudoElement _ b1 w E) in H; [discriminate|].
  rewrite map_app. apply in_or_app. right. left. reflexivity.
Qed.

End ChainClaims.

(** * Properties of the heap-level calls and of the facade *)

Section HeapFacts.

Import CssSelectorBuilder.

(** A method call writes the receiver only. *)
Lemma invoke_frame (body : t -> completion t) (this l : ref) (h : heap) :
  l <> this -> snd (invoke body this h) !! l = h !! l.
Proof.
  intros Hne. unfold invoke.
  destruct (h !! this) as [b|]; [|reflexivity].
  destruct (body b); simpl; [|reflexivity].
  apply lookup_insert_ne. congruence.
Qed.

Lemma call_combine_frame (this s1 s2 l : ref) (c : string) (h : heap) :
  l <> this -> snd (call_combine this s1 c s2 h) !! l = h !! l.
Proof.
  intros Hne. unfold call_combine.
  destruct (h !! s1); [|reflexivity].
  destruct (h !! s2); [|reflexivity].
  apply invoke_frame, Hne.
Qed.

Lemma method_frame (op : operation) (this l : ref) (h : heap) :
  l <> this -> snd (method op this h) !! l = h !! l.
Proof.
  intros Hne. destruct op; simpl;
    first [apply invoke_frame, Hne | apply call_combine_frame, Hne].
Qed.

(** [combine] on an existing receiver with existing arguments. *)
Lemma call_combine_eq (this s1 s2 : ref) (c : string) (h : heap)
    (b a1 a2 : t) :
  h !! this = Some b -> h !! s1 = Some a1 -> h !! s2 = Some a2 ->
  call_combine this s1 c s2 h =
    (Normal this,
     <[this := {| previousSelector := previousSelector b;
                  cssArray := (cssArray b ++ cssArray a1
                                 ++ [(" " ++ c ++ " ")%string] ++ cssArray a2)%list;
                  order := order b |}]> h).
Proof.
  intros Hb H1 H2. unfold call_combine, invoke, combine.
  rewrite H1, H2, Hb. rewrite <- !app_assoc. reflexivity.
Qed.

(** [combine] assigns neither [previousSelector] nor [order]. *)
Lemma call_combine_tracking (this s1 s2 : ref) (c : string) (h : heap) :
  previousSelector <$> snd (call_combine this s1 c s2 h) !! this
    = previousSelector <$> h !! this
  /\ order <$> snd (call_combine this s1 c s2 h) !! this = order <$> h !! this.
Proof.
  unfold call_combine, invoke, combine.
  destruct (h !! s1) as [a1|]; [|split; reflexivity].
  destruct (h !! s2) as [a2|]; [|split; reflexivity].
  destruct (h !! this) as [b|] eqn:Hb; simpl.
  - rewrite lookup_insert_eq. split; reflexivity.
  - rewrite Hb. split; reflexivity.
Qed.

(** The reference [new] returns is in use by no object. *)
Lemma fresh_unused (h : heap) : h !! fresh (dom h) = None.
Proof. apply not_elem_of_dom, is_fresh. Qed.

(** An entry point of the facade on a heap that holds the arguments: the body
    runs on the constructor's state, at the new reference. *)
Lemma facade_eq (op : operation) (h : heap) (body : t -> completion t) :
  body_of op h = Some body ->
  facade op h =
    match body constructor with
    | Normal b => (Normal (fresh (dom h)), <[fresh (dom h) := b]> h)
    | Throw e => (Throw e, <[fresh (dom h) := constructor]> h)
    end
  /\ (this <- new ;; method op this)%js h = facade op h.
Proof.
  pose proof (fresh_unused h) as Hr.
  destruct op as [v|v|v|v|v|v|s1 c s2]; simpl; intros Hbody;
    try (injection Hbody as <-;
         unfold cssSelectorBuilder.element, cssSelectorBuilder.id,
           cssSelectorBuilder.class, cssSelectorBuilder.attr,
           cssSelectorBuilder.pseudoClass, cssSelectorBuilder.pseudoElement,
           bind, new, invoke, ret;
         rewrite lookup_insert_eq;
         match goal with
         | |- context [match ?body constructor with _ => _ end] =>
             destruct (body constructor)
         end;
         rewrite ?insert_insert_eq; split; reflexivity).
  destruct (h !! s1) as [a1|] eqn:H1; [|discriminate].
  destruct (h !! s2) as [a2|] eqn:H2; [|discriminate].
  injection Hbody as <-.
  assert (s1 <> fresh (dom h)) as N1 by congruence.
  assert (s2 <> fresh (dom h)) as N2 by congruence.
  unfold cssSelectorBuilder.combine, bind, new, call_combine, invoke, ret.
  rewrite !lookup_insert_ne by congruence. rewrite H1, H2.
  rewrite lookup_insert_eq. simpl. rewrite insert_insert_eq.
  split; reflexivity.
Qed.

(** On the constructor's state none of the seven bodies throws. *)
Lemma body_on_constructor (op : operation) (h : heap)
    (body : t -> completion t) :
  body_of op h = Some body -> exists b, body constructor = Normal b.
Proof.
  destruct op as [v|v|v|v|v|v|s1 c s2]; simpl; intros Hbody;
    try (injection Hbody as <-; eexists; reflexivity).
  destruct (h !! s1); [|discriminate]. destruct (h !! s2); [|discriminate].
  injection Hbody as <-. eexists. reflexivity.
Qed.

(** The facade's [combine] never writes an object that exists already. *)
Lemma facade_combine_frame (s1 s2 l : ref) (c : string) (h : heap) :
  l ∈ dom h -> snd (cssSelectorBuilder.combine s1 c s2 h) !! l = h !! l.
Proof.
  intros Hl.
  assert (l <> fresh (dom h)) as Hne
    by (intros ->; exact (is_fresh (dom h) Hl)).
  unfold cssSelectorBuilder.combine, bind, new, ret.
  destruct (call_combine _ s1 c s2 _) as [[r|e] h'] eqn:E; simpl;
    replace h' with (snd (call_combine (fresh (dom h)) s1 c s2
                            (<[fresh (dom h) := constructor]> h)))
      by (rewrite E; reflexivity);
    rewrite call_combine_frame by exact Hne;
    apply lookup_insert_ne; congruence.
Qed.

End HeapFacts.

Section HeapClaims.

Import CssSelectorBuilder.

(** C6.  [combine] called on a builder with two selectors appends to the
    receiver's fragments those of the first selector, then the one fragment
    made of a space, the combinator and a space, then those of the second
    selector; it throws nothing and returns the receiver.  Through the facade
    the receiver is a new builder, so the result holds exactly these
    fragments.  Combining [element('div').id('main')] with
    [element('table').id('data')] by [~] renders as
    [div#main ~ table#data]. *)
Theorem combine_appends_both_selectors (h : heap) (this s1 s2 : ref)
    (c : string) (b a1 a2 : t) :
  h !! this = Some b -> h !! s1 = Some a1 -> h !! s2 = Some a2 ->
  call_combine this s1 c s2 h =
    (Normal this,
     <[this := {| previousSelector := previousSelector b;
                  cssArray := (cssArray b ++ cssArray a1
                                 ++ [(" " ++ c ++ " ")%string] ++ cssArray a2)%list;
                  order := order b |}]> h)
  /\ cssSelectorBuilder.combine s1 c s2 h =
       (Normal (fresh (dom h)),
        <[fresh (dom h) :=
            {| previousSelector := "";
               cssArray := (cssArray a1 ++ [(" " ++ c ++ " ")%string] ++ cssArray a2)%list;
               order := -1 |}]> h)
  /\ fst (example_combine ∅) = Normal "div#main ~ table#data".
Proof.
  intros Hb H1 H2. split; [apply call_combine_eq; assumption|]. split.
  - destruct (facade_eq (OpCombine s1 c s2) h (combine a1 c a2)) as [E _].
    { simpl. rewrite H1, H2. reflexivity. }
    simpl in E. rewrite E. rewrite <- !app_assoc. reflexivity.
  - vm_compute. reflexivity.
Qed.

(** The second builder of [example_heap] combines the first and the third
    with [+]. *)
Lemma combine_appends_both_selectors_witness :
  call_combine 2 1 "+" 3 example_heap =
    (Normal 2%positive,
     <[2%positive := {| previousSelector := "";
                        cssArray := [".a"; "div"; "#main"; " + "; "table"; "#data"];
                        order := 2 |}]> example_heap)
  /\ cssSelectorBuilder.combine 1 "+" 3 example_heap =
       (Normal (fresh (dom example_heap)),
        <[fresh (dom example_heap) :=
            {| previousSelector := "";
               cssArray := ["div"; "#main"; " + "; "table"; "#data"];
               order := -1 |}]> example_heap)
  /\ fst (example_combine ∅) = Normal "div#main ~ table#data".
Proof.
  exact (combine_appends_both_selectors example_heap 2 1 3 "+" _ _ _
           eq_refl eq_refl eq_refl).
Defined.

(** C7.  An entry point of the facade is the method of the same name called
    on a newly constructed builder: it allocates a reference in use by no
    object, runs the method's body on the constructor's state, where it does
    not throw, and returns that reference.  The objects that exist already
    are left as they are, and a later call on the new chain writes no other
    object. *)
Theorem facade_runs_method_on_new_builder (op : operation) (h : heap)
    (body : t -> completion t) :
  body_of op h = Some body ->
  facade op h = (this <- new ;; method op this)%js h
  /\ h !! fresh (dom h) = None
  /\ (exists b, body constructor = Normal b
        /\ facade op h = (Normal (fresh (dom h)), <[fresh (dom h) := b]> h))
  /\ (forall l, l <> fresh (dom h) -> snd (facade op h) !! l = h !! l)
  /\ (forall op' l, l <> fresh (dom h) ->
        snd (method op' (fresh (dom h)) (snd (facade op h))) !! l = h !! l).
Proof.
  intros Hbody. destruct (facade_eq op h body Hbody) as [E1 E2].
  destruct (body_on_constructor op h body Hbody) as [b Hb].
  rewrite Hb in E1.
  assert (forall l, l <> fresh (dom h) -> snd (facade op h) !! l = h !! l) as Hfr.
  { intros l Hne. rewrite E1. simpl. apply lookup_insert_ne. congruence. }
  split; [symmetry; exact E2|]. split; [apply fresh_unused|]. split.
  - exists b. split; [exact Hb | exact E1].
  - split; [exact Hfr|]. intros op' l Hne.
    rewrite method_frame by exact Hne. apply Hfr, Hne.
Qed.

(** The facade's [combine] of the first and third builders of
    [example_heap]. *)
Lemma facade_runs_method_on_new_builder_witness :
  facade (OpCombine 1 "~" 3) example_heap
    = (this <- new ;; method (OpCombine 1 "~" 3) this)%js example_heap
  /\ example_heap !! fresh (dom example_heap) = None
  /\ (exists b,
        combine {| previousSelector := "id"; cssArray := ["div"; "#main"]; order := 1 |}
          "~"
          {| previousSelector := "id"; cssArray := ["table"; "#data"]; order := 1 |}
          constructor = Normal b
        /\ facade (OpCombine 1 "~" 3) example_heap
           = (Normal (fresh (dom example_heap)),
              <[fresh (dom example_heap) := b]> example_heap))
  /\ (forall l, l <> fresh (dom example_heap) ->
        snd (facade (OpCombine 1 "~" 3) example_heap) !! l = example_heap !! l)
  /\ (forall op' l, l <> fresh (dom example_heap) ->
        snd (method op' (fresh (dom example_heap))
               (snd (facade (OpCombine 1 "~" 3) example_heap))) !! l
        = example_heap !! l).
Proof.
  exact (facade_runs_method_on_new_builder (OpCombine 1 "~" 3) example_heap
           _ eq_refl).
Defined.

(** C10, as the code has it.  [combine] leaves a selector argument that is
    not the receiver exactly as it was, fragments and tracking fields alike,
    whatever the other argument is, and of the receiver it changes the
    fragments only.  Through the facade the receiver is a new builder, so no
    object that exists already is changed. *)
Theorem combine_leaves_other_selectors (h : heap) (this s1 s2 : ref)
    (c : string) :
  (s1 <> this -> snd (call_combine this s1 c s2 h) !! s1 = h !! s1)
  /\ (s2 <> this -> snd (call_combine this s1 c s2 h) !! s2 = h !! s2)
  /\ previousSelector <$> snd (call_combine this s1 c s2 h) !! this
     = previousSelector <$> h !! this
  /\ order <$> snd (call_combine this s1 c s2 h) !! this = order <$> h !! this
  /\ (forall l, l ∈ dom h ->
        snd (cssSelectorBuilder.combine s1 c s2 h) !! l = h !! l).
Proof.
  split; [intros N1; apply call_combine_frame, N1|].
  split; [intros N2; apply call_combine_frame, N2|].
  split; [|split].
  - apply call_combine_tracking.
  - apply call_combine_tracking.
  - intros l Hl. apply facade_combine_frame, Hl.
Qed.

(** [b.combine(a, '+', b)], with the second builder of [example_heap] as
    [b] and the first as [a]: [a] is as it was, and [b] keeps its tracking
    fields. *)
Lemma combine_leaves_other_selectors_witness :
  snd (call_combine 2 1 "+" 2 example_heap) !! 1%positive
    = Some {| previousSelector := "id"; cssArray := ["div"; "#main"]; order := 1 |}
  /\ previousSelector <$> snd (call_combine 2 1 "+" 2 example_heap) !! 2%positive
     = Some ""
  /\ order <$> snd (call_combine 2 1 "+" 2 example_heap) !! 2%positive
     = Some 2.
Proof.
  destruct (combine_leaves_other_selectors example_heap 2 1 2 "+")
    as (H1 & _ & Hp & Ho & _).
  split; [|split].
  - rewrite H1; [reflexivity | discriminate].
  - rewrite Hp. reflexivity.
  - rewrite Ho. reflexivity.
Defined.

(** C10, as stated, fails when a selector argument is the receiver:
    [b.combine(b, '+', b)] on the second builder of [example_heap] changes the
    fragments of its first (and second) argument. *)
Lemma combine_with_receiver_changes_argument :
  example_heap !! 2%positive
    = Some {| previousSelector := ""; cssArray := [".a"]; order := 2 |}
  /\ snd (call_combine 2 2 "+" 2 example_heap) !! 2%positive
     = Some {| previousSelector := "";
               cssArray := [".a"; ".a"; " + "; ".a"];
               order := 2 |}
  /\ snd (call_combine 2 2 "+" 2 example_heap) !! 2%positive
     <> example_heap !! 2%positive.
Proof. repeat split. vm_compute. discriminate. Qed.

End HeapClaims.

(** * Properties of [Rectangle] *)

Section RectangleClaims.

Lemma getArea_assign {number : Type} (a : assignment) (r : @rectangle number) :
  getArea (assign a r) = getArea r.
Proof. destruct a; reflexivity. Qed.

Lemma getArea_assignAll {number : Type} (l : list assignment)
    (r : @rectangle number) :
  getArea (assignAll l r) = getArea r.
Proof.
  unfold assignAll. revert r.
  induction l as [|a l IH]; intros r; simpl; [reflexivity|].
  rewrite IH. apply getArea_assign.
Qed.

(** C8, as the code has it.  [Rectangle(width, height)] returns an object
    whose [width] and [height] properties are the arguments and whose
    [getArea()] returns the product of the two arguments, computed at each
    call from the parameters the method closes over: assignments made later
    to the object's [width] and [height] properties do not change what it
    returns.  [Rectangle(10, 20).getArea()] is 200 and
    [Rectangle(0, 5).getArea()] is 0. *)
Theorem Rectangle_getArea_of_arguments {number : Type}
    (times : number -> number -> number) (w h : number)
    (l : list assignment) :
  width (Rectangle times w h) = w
  /\ height (Rectangle times w h) = h
  /\ getArea (Rectangle times w h) tt = times w h
  /\ getArea (assignAll l (Rectangle times w h)) tt = times w h
  /\ getArea (Rectangle Z.mul 10 20) tt = 200
  /\ getArea (Rectangle Z.mul 0 5) tt = 0.
Proof.
  repeat split. rewrite getArea_assignAll. reflexivity.
Qed.

(** C8, as stated, fails: after [r.width = 5] on [r = Rectangle(10, 20)],
    [r.getArea()] is still 200, not the product 100 of the properties. *)
Lemma getArea_ignores_assigned_width :
  getArea (assign (SetWidth 5) (Rectangle Z.mul 10 20)) tt = 200
  /\ width (assign (SetWidth 5) (Rectangle Z.mul 10 20))
     * height (assign (SetWidth 5) (Rectangle Z.mul 10 20)) = 100
  /\ getArea (assign (SetWidth 5) (Rectangle Z.mul 10 20)) tt
     <> width (assign (SetWidth 5) (Rectangle Z.mul 10 20))
        * height (assign (SetWidth 5) (Rectangle Z.mul 10 20)).
Proof. repeat split. discriminate. Qed.

End RectangleClaims.

(** * Further properties of the selector builder *)

Section ChainOrder.

Import CssSelectorBuilder.

(** An appending method returns normally exactly when its two tests pass, and
    then it has appended the rendering and recorded the category. *)
Lemma append_accepts (f : fragment) (b : t) :
  append f b =
    if accepts b (fst f)
    then Normal {| previousSelector := tag (fst f);
                   cssArray := (cssArray b ++ [render f])%list;
                   order := rank (fst f) |}
    else Throw (if exclusive (fst f)
                   && String.eqb (previousSelector b) (tag (fst f))
                then DuplicateExclusive else OutOfOrder).
Proof.
  rewrite append_eq. unfold accepts.
  destruct (exclusive (fst f) && String.eqb (previousSelector b) (tag (fst f)));
    [reflexivity|].
  destruct (bool_decide (fst f <> PseudoElement) && (order b >? rank (fst f)));
    reflexivity.
Qed.

(** After a fragment of category [c], the tests for [c'] pass exactly when
    [c'] may follow [c]. *)
Lemma accepts_after (c c' : category) (l : list string) :
  accepts {| previousSelector := tag c; cssArray := l; order := rank c |} c'
  = may_follow c c'.
Proof. destruct c, c'; reflexivity. Qed.

Lemma accepts_fresh (b : t) (c : category) :
  previousSelector b = "" -> order b = -1 -> accepts b c = true.
Proof.
  intros Hp Ho. unfold accepts. rewrite Hp, Ho. destruct c; reflexivity.
Qed.

Lemma appendAll_after (fs : list fragment) :
  forall c l,
    (exists b, appendAll fs {| previousSelector := tag c; cssArray := l;
                               order := rank c |} = Normal b)
    <-> in_css_order (c :: map fst fs) = true.
Proof.
  induction fs as [|f fs IH]; intros c l.
  - simpl. split; [reflexivity | intros _; eexists; reflexivity].
  - cbn [appendAll map in_css_order]. rewrite append_accepts, accepts_after.
    destruct (may_follow c (fst f)); cbn [andb].
    + apply IH.
    + split; [intros [b Hb]; discriminate Hb | discriminate].
Qed.

(** X1.  On a builder whose tracking fields are as the constructor sets them
    (a new builder, or the one the facade's [combine] returns), a chain of
    appends runs without error exactly when its categories are in the order
    [element#id.class[attr]:pseudoClass::pseudoElement], the three middle
    parts occurring any number of times. *)
Theorem appendAll_accepts_css_order (b0 : t) (fs : list fragment) :
  previousSelector b0 = "" -> order b0 = -1 ->
  (exists b, appendAll fs b0 = Normal b) <-> in_css_order (map fst fs) = true.
Proof.
  intros Hp Ho. destruct fs as [|f fs].
  - simpl. split; [reflexivity | intros _; eexists; reflexivity].
  - cbn [appendAll map]. rewrite append_accepts, (accepts_fresh b0 _ Hp Ho).
    apply appendAll_after.
Qed.

(** The builder the facade's [combine] leaves for [div] and [p], extended by
    [.a.b:hover]. *)
Lemma appendAll_accepts_css_order_witness :
  (exists b,
     appendAll [(Class, "a"); (Class, "b"); (PseudoClass, "hover")]
       {| previousSelector := ""; cssArray := ["div"; " > "; "p"]; order := -1 |}
     = Normal b)
  <-> in_css_order (map fst [(Class, "a"); (Class, "b"); (PseudoClass, "hover")])
      = true.
Proof.
  exact (appendAll_accepts_css_order
           {| previousSelector := ""; cssArray := ["div"; " > "; "p"]; order := -1 |}
           [(Class, "a"); (Class, "b"); (PseudoClass, "hover")]
           eq_refl eq_refl).
Defined.

Lemma string_append_nil_r (x : string) : x ++ "" = x.
Proof.
  induction x as [|a x IH]; [reflexivity|].
  change (String a (x ++ "") = String a x). rewrite IH. reflexivity.
Qed.

Lemma string_append_assoc (x y z : string) : (x ++ y) ++ z = x ++ (y ++ z).
Proof.
  induction x as [|a x IH]; [reflexivity|].
  change (String a ((x ++ y) ++ z) = String a (x ++ (y ++ z))).
  rewrite IH. reflexivity.
Qed.

Lemma concat_empty_cons (y : string) (l : list string) :
  String.concat "" (y :: l) = y ++ String.concat "" l.
Proof.
  destruct l as [|z l]; [|reflexivity].
  change (y = y ++ ""). symmetry. apply string_append_nil_r.
Qed.

Lemma concat_empty_app (l1 l2 : list string) :
  String.concat "" (l1 ++ l2) = String.concat "" l1 ++ String.concat "" l2.
Proof.
  induction l1 as [|x l1 IH]; [reflexivity|].
  cbn [app]. rewrite !concat_empty_cons, IH, string_append_assoc.
  reflexivity.
Qed.

Lemma appendAll_cssArray (fs : list fragment) :
  forall b0 b, appendAll fs b0 = Normal b ->
               cssArray b = (cssArray b0 ++ map render fs)%list.
Proof.
  induction fs as [|f fs IH]; intros b0 b H.
  - injection H as <-. rewrite app_nil_r. reflexivity.
  - cbn [appendAll] in H. rewrite append_accepts in H.
    destruct (accepts b0 (fst f)); [|discriminate].
    rewrite (IH _ _ H). cbn [cssArray map]. rewrite <- app_assoc. reflexivity.
Qed.

(** X2.  Whatever state a builder is in, after a chain of appends that all
    succeeded [stringify()] returns what it would have returned before the
    chain, followed by the renderings of the new fragments in call order.  On
    a builder that was just rendered it therefore returns the new fragments
    only. *)
Theorem stringify_after_appends (b0 b : t) (fs : list fragment) :
  appendAll fs b0 = Normal b ->
  fst (stringify b) = fst (stringify b0) ++ String.concat "" (map render fs)
  /\ (forall a, b0 = snd (stringify a) ->
       fst (stringify b) = String.concat "" (map render fs)).
Proof.
  intros H. pose proof (appendAll_cssArray fs b0 b H) as Hc.
  assert (fst (stringify b)
          = fst (stringify b0) ++ String.concat "" (map render fs)) as E.
  { unfold stringify, join. cbn [fst]. rewrite Hc. apply concat_empty_app. }
  split; [exact E|]. intros a ->. rewrite E. reflexivity.
Qed.

(** [class('y')] on the builder [id('x')] has left, which renders [#x]; and
    [class('old')], [stringify()], then [class('y')]: the second rendering
    is [.y] alone. *)
Lemma stringify_after_appends_witness :
  fst (stringify {| previousSelector := ""; cssArray := ["#x"; ".y"]; order := 2 |})
    = fst (stringify {| previousSelector := "id"; cssArray := ["#x"]; order := 1 |})
      ++ String.concat "" (map render [(Class, "y")])
  /\ appendAll [(Class, "y")]
       (snd (stringify
          {| previousSelector := ""; cssArray := [".old"]; order := 2 |}))
     = Normal {| previousSelector := ""; cssArray := [".y"]; order := 2 |}
  /\ fst (stringify {| previousSelector := ""; cssArray := [".y"]; order := 2 |})
     = String.concat "" (map render [(Class, "y")]).
Proof.
  split; [|split; [reflexivity|]].
  - exact (proj1 (stringify_after_appends
                    {| previousSelector := "id"; cssArray := ["#x"]; order := 1 |}
                    {| previousSelector := ""; cssArray := ["#x"; ".y"]; order := 2 |}
                    [(Class, "y")] eq_refl)).
  - exact (proj2 (stringify_after_appends
                    (snd (stringify
                       {| previousSelector := ""; cssArray := [".old"]; order := 2 |}))
                    {| previousSelector := ""; cssArray := [".y"]; order := 2 |}
                    [(Class, "y")] eq_refl)
             {| previousSelector := ""; cssArray := [".old"]; order := 2 |}
             eq_refl).
Defined.

(** Once [pseudoElement] has succeeded, [order] is 5 and [previousSelector]
    is empty or names the pseudo-element, whatever is called afterwards. *)
Lemma perform_after_pseudoElement (a : action) (b : t) :
  order b = 5 ->
  previousSelector b = "" \/ previousSelector b = "pseudoElement" ->
  order (perform a b) = 5
  /\ (previousSelector (perform a b) = ""
      \/ previousSelector (perform a b) = "pseudoElement").
Proof.
  intros Ho Hp. split; [apply perform_order_5, Ho|].
  destruct a as [f| |s1 c s2]; cbn [perform]; [|left; reflexivity|exact Hp].
  rewrite append_accepts. destruct (accepts b (fst f)) eqn:E; [|exact Hp].
  cbn [previousSelector]. unfold accepts in E. rewrite Ho in E.
  destruct (fst f); try (right; reflexivity);
    apply andb_true_iff in E as [_ E]; vm_compute in E; discriminate E.
Qed.

Lemma performAll_after_pseudoElement (acts : list action) (b : t) :
  order b = 5 ->
  previousSelector b = "" \/ previousSelector b = "pseudoElement" ->
  order (performAll acts b) = 5
  /\ (previousSelector (performAll acts b) = ""
      \/ previousSelector (performAll acts b) = "pseudoElement").
Proof.
  unfold performAll. revert b.
  induction acts as [|a acts IH]; intros b Ho Hp; cbn [fold_left].
  - split; assumption.
  - destruct (perform_after_pseudoElement a b Ho Hp) as [Ho' Hp'].
    apply IH; assumption.
Qed.

(** X3.  A pseudo-element ends a builder: once [pseudoElement] has succeeded
    on it, every later call of [element], [id], [class], [attr] or
    [pseudoClass] throws the ordering error, whatever was called on the
    builder in between ([stringify] and [combine] included). *)
Theorem pseudoElement_is_final (b b' : t) (v : string) (acts : list action)
    (f : fragment) :
  pseudoElement v b = Normal b' -> fst f <> PseudoElement ->
  append f (performAll acts b') = Throw OutOfOrder.
Proof.
  intros H Hf. unfold pseudoElement in H.
  destruct (String.eqb (previousSelector b) "pseudoElement"); [discriminate|].
  injection H as <-.
  destruct (performAll_after_pseudoElement acts
              {| previousSelector := "pseudoElement";
                 cssArray := (cssArray b ++ [("::" ++ v)%string])%list;
                 order := 5 |} eq_refl (or_intror eq_refl)) as [Ho Hp].
  rewrite append_eq, Ho.
  destruct (fst f); try congruence;
    destruct Hp as [Hp|Hp]; rewrite Hp; reflexivity.
Qed.

(** [pseudoElement('after')] on a new builder, then [stringify()], then
    [element('div')]. *)
Lemma pseudoElement_is_final_witness :
  append (Element, "div")
    (performAll [Stringify]
       {| previousSelector := "pseudoElement"; cssArray := ["::after"]; order := 5 |})
  = Throw OutOfOrder.
Proof.
  apply (pseudoElement_is_final constructor _ "after" [Stringify] (Element, "div"));
    [reflexivity | discriminate].
Defined.

End ChainOrder.

(** * Further properties of the heap-level calls *)

Section HeapExtras.

Import CssSelectorBuilder.

Lemma join_app (l1 l2 : list string) : join (l1 ++ l2) = join l1 ++ join l2.
Proof. apply concat_empty_app. Qed.

(** The rendering of what [combine] stores. *)
Lemma join_combined (l1 l2 : list string) (c : string) :
  join (l1 ++ [(" " ++ c ++ " ")%string] ++ l2)%list
  = join l1 ++ " " ++ c ++ " " ++ join l2.
Proof.
  rewrite join_app. f_equal. unfold join. cbn [app].
  rewrite concat_empty_cons. fold (join l2).
  change (" " ++ c ++ " ") with (String " "%char (c ++ " ")).
  change (String " "%char (c ++ " ") ++ join l2)
    with (String " "%char ((c ++ " ") ++ join l2)).
  rewrite string_append_assoc. reflexivity.
Qed.

Lemma call_stringify_eq (this : ref) (h : heap) (b : t) :
  h !! this = Some b ->
  call_stringify this h =
    (Normal (join (cssArray b)),
     <[this := {| previousSelector := ""; cssArray := []; order := order b |}]> h).
Proof. intros H. unfold call_stringify. rewrite H. reflexivity. Qed.

Lemma call_stringify_frame (this l : ref) (h : heap) :
  l <> this -> snd (call_stringify this h) !! l = h !! l.
Proof.
  intros Hne. unfold call_stringify. destruct (h !! this) as [b|]; [|reflexivity].
  cbn. apply lookup_insert_ne. congruence.
Qed.

Lemma facade_combine_eq (s1 s2 : ref) (c : string) (h : heap) (a1 a2 : t) :
  h !! s1 = Some a1 -> h !! s2 = Some a2 ->
  cssSelectorBuilder.combine s1 c s2 h =
    (Normal (fresh (dom h)),
     <[fresh (dom h) :=
         {| previousSelector := "";
            cssArray := (cssArray a1 ++ [(" " ++ c ++ " ")%string]
                           ++ cssArray a2)%list;
            order := -1 |}]> h).
Proof.
  intros H1 H2.
  destruct (facade_eq (OpCombine s1 c s2) h (combine a1 c a2)) as [E _].
  { simpl. rewrite H1, H2. reflexivity. }
  simpl in E. rewrite E. rewrite <- !app_assoc. reflexivity.
Qed.

Lemma lookup_insert_fresh (h : heap) (l : ref) (a b : t) :
  h !! l = Some a -> <[fresh (dom h) := b]> h !! l = Some a.
Proof.
  intros H. rewrite lookup_insert_ne; [exact H|].
  intros E. rewrite <- E, fresh_unused in H. discriminate.
Qed.

(** X4.  [stringify()] consumes the fragments: called twice in a row on a
    builder, it returns the rendering the first time and the empty string the
    second time, and leaves the builder with no fragment and its [order]. *)
Theorem stringify_twice_second_is_empty (this : ref) (h : heap) (b : t) :
  h !! this = Some b ->
  stringify_twice this h =
    (Normal (join (cssArray b), ""),
     <[this := {| previousSelector := ""; cssArray := []; order := order b |}]> h).
Proof.
  intros H. unfold stringify_twice, bind, ret.
  rewrite (call_stringify_eq this h b H).
  rewrite (call_stringify_eq this _ _ (lookup_insert_eq h this _)).
  rewrite insert_insert_eq. reflexivity.
Qed.

(** The first builder of [example_heap], rendered twice. *)
Lemma stringify_twice_second_is_empty_witness :
  stringify_twice 1 example_heap =
    (Normal ("div#main", ""),
     <[1%positive := {| previousSelector := ""; cssArray := []; order := 1 |}]>
       example_heap).
Proof.
  exact (stringify_twice_second_is_empty 1 example_heap _ eq_refl).
Defined.

(** X5.  [combine(s1, c, s2).stringify()] through the facade returns the
    rendering of [s1], a space, the combinator, a space and the rendering of
    [s2], and leaves both selectors as they were, so that each can still be
    rendered or combined again. *)
Theorem combine_and_render_concatenates (s1 s2 : ref) (c : string) (h : heap)
    (a1 a2 : t) :
  h !! s1 = Some a1 -> h !! s2 = Some a2 ->
  fst (combine_and_render s1 c s2 h)
    = Normal (join (cssArray a1) ++ " " ++ c ++ " " ++ join (cssArray a2))
  /\ snd (combine_and_render s1 c s2 h) !! s1 = Some a1
  /\ snd (combine_and_render s1 c s2 h) !! s2 = Some a2.
Proof.
  intros H1 H2. unfold combine_and_render, bind.
  rewrite (facade_combine_eq s1 s2 c h a1 a2 H1 H2).
  rewrite (call_stringify_eq _ _ _ (lookup_insert_eq h _ _)).
  cbn [fst snd cssArray]. rewrite join_combined, insert_insert_eq.
  repeat split; apply lookup_insert_fresh; assumption.
Qed.

(** The first and the third builder of [example_heap], combined by [~]. *)
Lemma combine_and_render_concatenates_witness :
  fst (combine_and_render 1 "~" 3 example_heap) = Normal "div#main ~ table#data"
  /\ snd (combine_and_render 1 "~" 3 example_heap) !! 1%positive
     = Some {| previousSelector := "id"; cssArray := ["div"; "#main"]; order := 1 |}
  /\ snd (combine_and_render 1 "~" 3 example_heap) !! 3%positive
     = Some {| previousSelector := "id"; cssArray := ["table"; "#data"]; order := 1 |}.
Proof.
  exact (combine_and_render_concatenates 1 3 "~" example_heap _ _
           eq_refl eq_refl).
Defined.

(** X6.  Nesting does not show in the rendering: combining three selectors
    as [combine(combine(a, c1, b), c2, d)] or as
    [combine(a, c1, combine(b, c2, d))] renders the same string, the three
    renderings with the two combinators between them. *)
Theorem combine_nesting_renders_alike (a b d : ref) (c1 c2 : string)
    (h : heap) (sa sb sd : t) :
  h !! a = Some sa -> h !! b = Some sb -> h !! d = Some sd ->
  fst (combine_left a c1 b c2 d h)
    = Normal (join (cssArray sa) ++ " " ++ c1 ++ " " ++ join (cssArray sb)
              ++ " " ++ c2 ++ " " ++ join (cssArray sd))
  /\ fst (combine_right a c1 b c2 d h) = fst (combine_left a c1 b c2 d h).
Proof.
  intros Ha Hb Hd.
  assert (fst (combine_left a c1 b c2 d h)
          = Normal (join (cssArray sa) ++ " " ++ c1 ++ " " ++ join (cssArray sb)
                    ++ " " ++ c2 ++ " " ++ join (cssArray sd))) as EL.
  { unfold combine_left, bind.
    rewrite (facade_combine_eq a b c1 h sa sb Ha Hb).
    rewrite (facade_combine_eq _ d c2 _ _ sd (lookup_insert_eq h _ _)
               (lookup_insert_fresh h d sd _ Hd)).
    rewrite (call_stringify_eq _ _ _ (lookup_insert_eq _ _ _)).
    cbn [fst cssArray]. rewrite !join_combined.
    rewrite !string_append_assoc. reflexivity. }
  split; [exact EL|]. rewrite EL.
  unfold combine_right, bind.
  rewrite (facade_combine_eq b d c2 h sb sd Hb Hd).
  rewrite (facade_combine_eq a _ c1 _ sa _ (lookup_insert_fresh h a sa _ Ha)
             (lookup_insert_eq h _ _)).
  rewrite (call_stringify_eq _ _ _ (lookup_insert_eq _ _ _)).
  cbn [fst cssArray]. rewrite !join_combined. reflexivity.
Qed.

(** The three builders of [example_heap], combined by [+] and [~]. *)
Lemma combine_nesting_renders_alike_witness :
  fst (combine_left 1 "+" 2 "~" 3 example_heap)
    = Normal "div#main + .a ~ table#data"
  /\ fst (combine_right 1 "+" 2 "~" 3 example_heap)
     = fst (combine_left 1 "+" 2 "~" 3 example_heap).
Proof.
  exact (combine_nesting_renders_alike 1 2 3 "+" "~" example_heap _ _ _
           eq_refl eq_refl eq_refl).
Defined.

(** X7.  [combine] copies the fragments of its arguments: once the facade's
    [combine] has returned a selector, no call on another builder, the
    arguments included (an append, a [combine], a [stringify]), changes what
    that selector renders. *)
Theorem combined_selector_keeps_fragments (s1 s2 target : ref) (c : string)
    (op : operation) (h : heap) (a1 a2 t0 : t) :
  h !! s1 = Some a1 -> h !! s2 = Some a2 -> h !! target = Some t0 ->
  fst (call_stringify (fresh (dom h))
         (snd (method op target (snd (cssSelectorBuilder.combine s1 c s2 h)))))
    = Normal (join (cssArray a1) ++ " " ++ c ++ " " ++ join (cssArray a2))
  /\ fst (call_stringify (fresh (dom h))
            (snd (call_stringify target
                    (snd (cssSelectorBuilder.combine s1 c s2 h)))))
     = Normal (join (cssArray a1) ++ " " ++ c ++ " " ++ join (cssArray a2)).
Proof.
  intros H1 H2 Ht.
  assert (fresh (dom h) <> target) as Hne.
  { intros E. rewrite <- E, fresh_unused in Ht. discriminate. }
  rewrite (facade_combine_eq s1 s2 c h a1 a2 H1 H2). cbn [snd].
  split.
  - rewrite (call_stringify_eq (fresh (dom h)) _
               {| previousSelector := "";
                  cssArray := (cssArray a1 ++ [(" " ++ c ++ " ")%string]
                                 ++ cssArray a2)%list;
                  order := -1 |}).
    + cbn [fst cssArray]. rewrite join_combined. reflexivity.
    + rewrite method_frame by exact Hne. apply lookup_insert_eq.
  - rewrite (call_stringify_eq (fresh (dom h)) _
               {| previousSelector := "";
                  cssArray := (cssArray a1 ++ [(" " ++ c ++ " ")%string]
                                 ++ cssArray a2)%list;
                  order := -1 |}).
    + cbn [fst cssArray]. rewrite join_combined. reflexivity.
    + rewrite call_stringify_frame by exact Hne. apply lookup_insert_eq.
Qed.

(** [x = combine(first, '~', third)], then [first.class('late')] and
    [first.stringify()]: [x] still renders [div#main ~ table#data]. *)
Lemma combined_selector_keeps_fragments_witness :
  fst (call_stringify (fresh (dom example_heap))
         (snd (method (OpClass "late") 1
                 (snd (cssSelectorBuilder.combine 1 "~" 3 example_heap)))))
    = Normal "div#main ~ table#data"
  /\ fst (call_stringify (fresh (dom example_heap))
            (snd (call_stringify 1
                    (snd (cssSelectorBuilder.combine 1 "~" 3 example_heap)))))
     = Normal "div#main ~ table#data".
Proof.
  exact (combined_selector_keeps_fragments 1 3 1 "~" (OpClass "late")
           example_heap _ _ _ eq_refl eq_refl eq_refl).
Defined.

Lemma method_op_of (f : fragment) (this : ref) (h : heap) :
  method (op_of f) this h = invoke (append f) this h.
Proof. destruct f as [[] v]; reflexivity. Qed.

Lemma facade_op_of (f : fragment) (h : heap) :
  facade (op_of f) h =
    (Normal (fresh (dom h)),
     <[fresh (dom h) := {| previousSelector := tag (fst f);
                           cssArray := [render f];
                           order := rank (fst f) |}]> h).
Proof.
  destruct f as [[] v]; cbn [op_of fst snd].
  - destruct (facade_eq (OpElement v) h _ eq_refl) as [E _]. exact E.
  - destruct (facade_eq (OpId v) h _ eq_refl) as [E _]. exact E.
  - destruct (facade_eq (OpClass v) h _ eq_refl) as [E _]. exact E.
  - destruct (facade_eq (OpAttr v) h _ eq_refl) as [E _]. exact E.
  - destruct (facade_eq (OpPseudoClass v) h _ eq_refl) as [E _]. exact E.
  - destruct (facade_eq (OpPseudoElement v) h _ eq_refl) as [E _]. exact E.
Qed.

(** The method calls of a chain on a heap object run as [appendAll] on its
    fields, and write no other object. *)
Lemma invoke_all_spec (fs : list fragment) :
  forall (this : ref) (h : heap) (b : t),
    h !! this = Some b ->
    (forall l, l <> this -> snd (invoke_all fs this h) !! l = h !! l)
    /\ match appendAll fs b with
       | Normal b' => invoke_all fs this h = (Normal this, <[this := b']> h)
       | Throw e => fst (invoke_all fs this h) = Throw e
       end.
Proof.
  induction fs as [|f fs IH]; intros this h b Hb.
  - cbn [invoke_all appendAll]. unfold ret. split; [reflexivity|].
    rewrite (insert_id h this b Hb). reflexivity.
  - cbn [invoke_all appendAll]. unfold bind. rewrite method_op_of.
    unfold invoke. rewrite Hb. destruct (append f b) as [b1|e].
    + destruct (IH this (<[this := b1]> h) b1 (lookup_insert_eq h this b1))
        as [Hfr Hres].
      split.
      * intros l Hl. rewrite (Hfr l Hl). apply lookup_insert_ne. congruence.
      * destruct (appendAll fs b1) as [b'|e]; [|exact Hres].
        rewrite Hres, insert_insert_eq. reflexivity.
    + split; reflexivity.
Qed.

(** A chain of appends throws nothing but the two errors of the source. *)
Lemma appendAll_errors (fs : list fragment) :
  forall b e, appendAll fs b = Throw e ->
              e = DuplicateExclusive \/ e = OutOfOrder.
Proof.
  induction fs as [|f fs IH]; intros b e H; [discriminate|].
  cbn [appendAll] in H. rewrite append_accepts in H.
  destruct (accepts b (fst f)); [exact (IH _ _ H)|].
  injection H as <-.
  destruct (exclusive (fst f) && _); [left | right]; reflexivity.
Qed.

(** X10.  A fluent chain started through the facade,
    [cssSelectorBuilder.m(v).m1(v1)...stringify()]: when the categories are
    in the order [element#id.class[attr]:pseudoClass::pseudoElement] (the
    three middle parts any number of times), it returns the renderings of
    the fragments concatenated; otherwise it throws one of the two errors of
    the source.  Either way no builder that existed before is changed. *)
Theorem fluent_chain_renders_or_throws (f : fragment) (fs : list fragment)
    (h : heap) :
  (if in_css_order (map fst (f :: fs))
   then fst (fluent f fs h)
        = Normal (String.concat "" (map render (f :: fs)))
   else fst (fluent f fs h) = Throw DuplicateExclusive
        \/ fst (fluent f fs h) = Throw OutOfOrder)
  /\ (forall l, l ∈ dom h -> snd (fluent f fs h) !! l = h !! l).
Proof.
  unfold fluent, bind. rewrite facade_op_of.
  set (r := fresh (dom h)).
  set (b1 := {| previousSelector := tag (fst f); cssArray := [render f];
                order := rank (fst f) |}).
  destruct (invoke_all_spec fs r (<[r := b1]> h) b1 (lookup_insert_eq h r b1))
    as [Hfr Hres].
  pose proof (appendAll_after fs (fst f) [render f]) as Hord.
  fold b1 in Hord. cbn [map] in *.
  split.
  - destruct (appendAll fs b1) as [b'|e] eqn:E.
    + rewrite (proj1 Hord (ex_intro _ b' eq_refl)). rewrite Hres.
      rewrite (call_stringify_eq r _ b' (lookup_insert_eq _ r b')).
      cbn [fst]. rewrite (appendAll_cssArray fs b1 b' E).
      reflexivity.
    + destruct (in_css_order (fst f :: map fst fs)) eqn:Ho.
      * destruct (proj2 Hord eq_refl) as [b' Hb']. discriminate Hb'.
      * destruct (invoke_all fs r (<[r := b1]> h)) as [[y|e'] h'] eqn:Ei;
          cbn [fst] in Hres; [discriminate Hres|].
        injection Hres as ->. cbn [fst].
        destruct (appendAll_errors fs b1 e E) as [-> | ->];
          [left | right]; reflexivity.
  - intros l Hl.
    assert (l <> r) as Hne by (intros ->; exact (is_fresh (dom h) Hl)).
    specialize (Hfr l Hne).
    destruct (invoke_all fs r (<[r := b1]> h)) as [[y|e'] h'] eqn:Ei;
      cbn [snd] in Hfr |- *.
    + destruct (appendAll fs b1) as [b'|e]; [|discriminate Hres].
      injection Hres as -> ->.
      rewrite call_stringify_frame by exact Hne.
      rewrite lookup_insert_ne by congruence.
      apply lookup_insert_ne. congruence.
    + rewrite Hfr. apply lookup_insert_ne. congruence.
Qed.

(** The first example of the source's documentation. *)
Example fluent_id_class_class :
  fst (fluent (Id, "main") [(Class, "container"); (Class, "editable")] ∅)
  = Normal "#main.container.editable".
Proof. vm_compute. reflexivity. Qed.

(** A selector built by [combine] may hold a pseudo-element fragment copied
    from an argument and still accept [class]:
    [combine(pseudoElement('after'), '+', element('b')).class('x')]. *)
Example class_after_combined_pseudoElement :
  fst ((a <- cssSelectorBuilder.pseudoElement "after" ;;
        b <- cssSelectorBuilder.element "b" ;;
        x <- cssSelectorBuilder.combine a "+" b ;;
        x <- invoke (CssSelectorBuilder.class "x") x ;;
        call_stringify x)%js ∅)
  = Normal "::after + b.x".
Proof. vm_compute. reflexivity. Qed.

End HeapExtras.
